(** * Lockbox: the access-control state machine of [Algorithm.py]

    A shallow embedding of the class [SecureLockboxSystem] of
    [Algorithms & Codes/Algorithm.py]: the tree-button sequence check, the
    keypad PIN phase, the failure counter, the lockout and its cooldown
    thread, and the main polling loop.

    Conventions of the embedding.
    - The object [self] is the record [Lockbox]; a method is a computation
      in the monad [M], which threads the record and may raise a Python
      exception (the fields written before the exception stay written).
    - Time is a clock in milliseconds.  Only [time.sleep] lets it advance.
    - [threading.Thread(target=self.lockout_timer).start()] records the
      wake-up time of the new thread; the thread's code after its own
      [time.sleep] runs while the main thread sleeps ([sleep]).
    - What the hardware would show when it is read is an argument of the
      method that reads it (the buttons of one scan pass, the cells of one
      keypad scan).
    - A log line is kept as a constructor of [LogMsg]; [render] gives the
      text the source formats.  The timestamp prefix is left out. *)

From Stdlib Require Import ZArith List String Ascii Bool Arith Lia DecimalString.
Import ListNotations.

(* ================================================================== *)
(** ** SHA-256 ([hashlib.sha256]), on 32-bit words kept in [Z] *)
(* ================================================================== *)

Module Sha256.

Local Open Scope Z_scope.

Definition w32 (x : Z) : Z := Z.land x 0xffffffff.
Definition add32 (x y : Z) : Z := w32 (x + y).
Definition rotr (n x : Z) : Z :=
  w32 (Z.lor (Z.shiftr x n) (Z.shiftl x (32 - n))).
Definition shr (n x : Z) : Z := Z.shiftr x n.

Definition ch (x y z : Z) : Z :=
  Z.lxor (Z.land x y) (Z.land (Z.lnot x) z).
Definition maj (x y z : Z) : Z :=
  Z.lxor (Z.land x y) (Z.lxor (Z.land x z) (Z.land y z)).
Definition bsig0 (x : Z) : Z := Z.lxor (rotr 2 x) (Z.lxor (rotr 13 x) (rotr 22 x)).
Definition bsig1 (x : Z) : Z := Z.lxor (rotr 6 x) (Z.lxor (rotr 11 x) (rotr 25 x)).
Definition ssig0 (x : Z) : Z := Z.lxor (rotr 7 x) (Z.lxor (rotr 18 x) (shr 3 x)).
Definition ssig1 (x : Z) : Z := Z.lxor (rotr 17 x) (Z.lxor (rotr 19 x) (shr 10 x)).

(** The initial hash value and the round constants of FIPS 180-4: the
    first 32 bits of the fractional parts of the square roots of the
    first 8 primes and of the cube roots of the first 64 primes. *)
Definition H0 : list Z :=
  [ 1779033703; 3144134277; 1013904242; 2773480762;
    1359893119; 2600822924;  528734635; 1541459225 ].

Definition K : list Z :=
  [ 1116352408; 1899447441; 3049323471; 3921009573;
     961987163; 1508970993; 2453635748; 2870763221;
    3624381080;  310598401;  607225278; 1426881987;
    1925078388; 2162078206; 2614888103; 3248222580;
    3835390401; 4022224774;  264347078;  604807628;
     770255983; 1249150122; 1555081692; 1996064986;
    2554220882; 2821834349; 2952996808; 3210313671;
    3336571891; 3584528711;  113926993;  338241895;
     666307205;  773529912; 1294757372; 1396182291;
    1695183700; 1986661051; 2177026350; 2456956037;
    2730485921; 2820302411; 3259730800; 3345764771;
    3516065817; 3600352804; 4094571909;  275423344;
     430227734;  506948616;  659060556;  883997877;
     958139571; 1322822218; 1537002063; 1747873779;
    1955562222; 2024104815; 2227730452; 2361852424;
    2428436474; 2756734187; 3204031479; 3329325298 ].

(** The same constants from their definition, to check the tables. *)
Definition first_primes : list Z :=
  [ 2; 3; 5; 7; 11; 13; 17; 19; 23; 29; 31; 37; 41; 43; 47; 53; 59; 61;
    67; 71; 73; 79; 83; 89; 97; 101; 103; 107; 109; 113; 127; 131; 137;
    139; 149; 151; 157; 163; 167; 173; 179; 181; 191; 193; 197; 199; 211;
    223; 227; 229; 233; 239; 241; 251; 257; 263; 269; 271; 277; 281; 283;
    293; 307; 311 ].

(** The largest [r] in [lo, lo + 2^bits) with [r^3 <= n], by bisection. *)
Fixpoint cube_root_from (bits : nat) (lo n : Z) : Z :=
  match bits with
  | O => lo
  | S b =>
      let mid := lo + Z.shiftl 1 (Z.of_nat b) in
      if mid * mid * mid <=? n then cube_root_from b mid n
      else cube_root_from b lo n
  end.

Definition frac_sqrt (p : Z) : Z := w32 (Z.sqrt (Z.shiftl p 64)).
Definition frac_cbrt (p : Z) : Z := w32 (cube_root_from 36 0 (Z.shiftl p 96)).

(** Padding: the byte 0x80, zero bytes up to 56 modulo 64, then the length
    of the message in bits as eight big-endian bytes. *)
Definition be_bytes (n : nat) (x : Z) : list Z :=
  map (fun i => Z.land (Z.shiftr x (8 * Z.of_nat i)) 0xff) (rev (seq 0 n)).

Definition pad (msg : list Z) : list Z :=
  let len := Z.of_nat (List.length msg) in
  let zeros := Z.to_nat ((55 - len) mod 64) in
  msg ++ [0x80] ++ repeat 0 zeros ++ be_bytes 8 (8 * len).

Fixpoint be_word (bs : list Z) (acc : Z) : Z :=
  match bs with
  | [] => acc
  | b :: bs' => be_word bs' (Z.lor (Z.shiftl acc 8) b)
  end.

(** [words n bs]: the first [n] big-endian 32-bit words of [bs]. *)
Fixpoint words (n : nat) (bs : list Z) : list Z :=
  match n with
  | O => []
  | S n' => be_word (firstn 4 bs) 0 :: words n' (skipn 4 bs)
  end.

(** The message schedule: sixteen words of the block, then 48 derived. *)
Fixpoint extend (n : nat) (w : list Z) : list Z :=
  match n with
  | O => w
  | S n' =>
      let t := List.length w in
      let at_ (k : nat) := nth (t - k) w 0 in
      extend n' (w ++ [add32 (add32 (ssig1 (at_ 2%nat)) (at_ 7%nat))
                             (add32 (ssig0 (at_ 15%nat)) (at_ 16%nat))])
  end.

Record Regs := mkRegs { ra : Z; rb : Z; rc : Z; rd : Z;
                        re : Z; rf : Z; rg : Z; rh : Z }.

Definition round (r : Regs) (kw : Z * Z) : Regs :=
  let t1 := add32 (add32 (add32 (rh r) (bsig1 (re r)))
                         (add32 (ch (re r) (rf r) (rg r)) (fst kw))) (snd kw) in
  let t2 := add32 (bsig0 (ra r)) (maj (ra r) (rb r) (rc r)) in
  mkRegs (add32 t1 t2) (ra r) (rb r) (rc r) (add32 (rd r) t1) (re r) (rf r) (rg r).

Definition regs_of (h : list Z) : Regs :=
  mkRegs (nth 0 h 0) (nth 1 h 0) (nth 2 h 0) (nth 3 h 0)
         (nth 4 h 0) (nth 5 h 0) (nth 6 h 0) (nth 7 h 0).

Definition compress (h : list Z) (block : list Z) : list Z :=
  let w := extend 48 (words 16 block) in
  let r := fold_left round (combine K w) (regs_of h) in
  map (fun p => add32 (fst p) (snd p))
      (combine h [ra r; rb r; rc r; rd r; re r; rf r; rg r; rh r]).

Fixpoint blocks (n : nat) (h : list Z) (bs : list Z) : list Z :=
  match n with
  | O => h
  | S n' => blocks n' (compress h (firstn 64 bs)) (skipn 64 bs)
  end.

Definition digest (msg : list Z) : list Z :=
  let p := pad msg in
  blocks (List.length p / 64) H0 p.

Definition hex_digit (d : Z) : ascii :=
  ascii_of_nat (Z.to_nat (if d <? 10 then 48 + d else 87 + d)).

Fixpoint hex_of_nibbles (ds : list Z) : string :=
  match ds with
  | [] => EmptyString
  | d :: ds' => String (hex_digit d) (hex_of_nibbles ds')
  end.

Definition nibbles (wd : Z) : list Z :=
  map (fun i => Z.land (Z.shiftr wd (4 * Z.of_nat i)) 0xf) (rev (seq 0 8)).

(** [str.encode()] on the ASCII text the program hashes: one byte a
    character. *)
Definition encode (s : string) : list Z :=
  map (fun c => Z.of_nat (nat_of_ascii c)) (list_ascii_of_string s).

(** [hashlib.sha256(data).hexdigest()] *)
Definition hexdigest (s : string) : string :=
  hex_of_nibbles (flat_map nibbles (digest (encode s))).

End Sha256.

(** [hash_pin]: the salted digest of a PIN. *)
Definition salt : string := "lockbox_secure_salt_2024".

Definition hash_pin (pin : string) : string :=
  Sha256.hexdigest (pin ++ salt).

Arguments hash_pin : simpl never.

(* ================================================================== *)
(** ** The state of a [SecureLockboxSystem] object *)
(* ================================================================== *)

(** The patterns of [audio_feedback]. *)
Inductive Pattern := Single | Success | Error.

(** The Python exceptions the modelled methods can raise. *)
Inductive Exn := IndexError.

(** The lines given to [log_event]. *)
Inductive LogMsg :=
| LogInitialized
| LogAudioMock (pattern : Pattern)
| LogReset
| LogButton (idx step : nat)
| LogCorrect (idx step : nat)
| LogSequenceDone
| LogIncorrect (idx step : nat)
| LogUnlockMock
| LogUnlockStart
| LogUnlockDone
| LogLockout (failed : nat)
| LogTimerStarted (seconds : Z)
| LogLockoutExpired
| LogPinPhase
| LogPinTimeout
| LogKey (key : ascii)
| LogPinOk
| LogAdminPin
| LogInvalidPin
| LogAdminOn
| LogAdminDone
| LogStarted
| LogSystemError (e : Exn)
| LogCleanup
| LogShutdown.

Record Lockbox := mkLockbox {
  (* configuration, written once by [__init__] and [load_configuration] *)
  hardware_available : bool;
  correct_path : list Z;
  correct_pin_hash : string;
  admin_pin_hash : string;
  (* "System state variables" *)
  current_step : nat;
  unlocked : bool;
  system_locked : bool;
  failed_attempts : nat;
  last_activity : Z;
  (* "Security logging" *)
  event_log : list LogMsg;
  (* outputs: the 31 position LEDs and the status LED *)
  led_pins : list bool;
  status_led : bool;
  (* the world around the object: standard output, the clock in
     milliseconds, and the wake-up times of the [lockout_timer] threads
     that were started and have not yet woken *)
  console : list LogMsg;
  clock : Z;
  timers : list Z
}.

Definition max_attempts : nat := 3.
Definition lockout_duration : Z := 300.   (* seconds *)
Definition max_log_entries : nat := 1000.
Definition pin_timeout : Z := 30.         (* seconds *)

Definition keypad_row_pins : list nat := [21; 22; 23].
Definition keypad_col_pins : list nat := [24; 25; 26].
Definition keypad_keys : list (list ascii) :=
  [ ["1"; "2"; "3"]; ["4"; "5"; "6"]; ["7"; "8"; "9"] ]%char.

(** *** Field writes *)

Definition set_current_step (v : nat) (s : Lockbox) : Lockbox :=
  mkLockbox (hardware_available s) (correct_path s) (correct_pin_hash s)
    (admin_pin_hash s) v (unlocked s) (system_locked s) (failed_attempts s)
    (last_activity s) (event_log s) (led_pins s) (status_led s) (console s)
    (clock s) (timers s).

Definition set_unlocked (v : bool) (s : Lockbox) : Lockbox :=
  mkLockbox (hardware_available s) (correct_path s) (correct_pin_hash s)
    (admin_pin_hash s) (current_step s) v (system_locked s) (failed_attempts s)
    (last_activity s) (event_log s) (led_pins s) (status_led s) (console s)
    (clock s) (timers s).

Definition set_system_locked (v : bool) (s : Lockbox) : Lockbox :=
  mkLockbox (hardware_available s) (correct_path s) (correct_pin_hash s)
    (admin_pin_hash s) (current_step s) (unlocked s) v (failed_attempts s)
    (last_activity s) (event_log s) (led_pins s) (status_led s) (console s)
    (clock s) (timers s).

Definition set_failed_attempts (v : nat) (s : Lockbox) : Lockbox :=
  mkLockbox (hardware_available s) (correct_path s) (correct_pin_hash s)
    (admin_pin_hash s) (current_step s) (unlocked s) (system_locked s) v
    (last_activity s) (event_log s) (led_pins s) (status_led s) (console s)
    (clock s) (timers s).

Definition set_last_activity (v : Z) (s : Lockbox) : Lockbox :=
  mkLockbox (hardware_available s) (correct_path s) (correct_pin_hash s)
    (admin_pin_hash s) (current_step s) (unlocked s) (system_locked s)
    (failed_attempts s) v (event_log s) (led_pins s) (status_led s) (console s)
    (clock s) (timers s).

Definition set_logs (log out : list LogMsg) (s : Lockbox) : Lockbox :=
  mkLockbox (hardware_available s) (correct_path s) (correct_pin_hash s)
    (admin_pin_hash s) (current_step s) (unlocked s) (system_locked s)
    (failed_attempts s) (last_activity s) log (led_pins s) (status_led s) out
    (clock s) (timers s).

Definition set_led_pins (v : list bool) (s : Lockbox) : Lockbox :=
  mkLockbox (hardware_available s) (correct_path s) (correct_pin_hash s)
    (admin_pin_hash s) (current_step s) (unlocked s) (system_locked s)
    (failed_attempts s) (last_activity s) (event_log s) v (status_led s)
    (console s) (clock s) (timers s).

Definition set_status_led (v : bool) (s : Lockbox) : Lockbox :=
  mkLockbox (hardware_available s) (correct_path s) (correct_pin_hash s)
    (admin_pin_hash s) (current_step s) (unlocked s) (system_locked s)
    (failed_attempts s) (last_activity s) (event_log s) (led_pins s) v
    (console s) (clock s) (timers s).

Definition set_clock_timers (now : Z) (ts : list Z) (s : Lockbox) : Lockbox :=
  mkLockbox (hardware_available s) (correct_path s) (correct_pin_hash s)
    (admin_pin_hash s) (current_step s) (unlocked s) (system_locked s)
    (failed_attempts s) (last_activity s) (event_log s) (led_pins s)
    (status_led s) (console s) now ts.

(** The statements of the methods that write a field, one definition
    each. *)

(** [for led in self.led_pins: led.value = b] *)
Definition leds_all (b : bool) (s : Lockbox) : Lockbox :=
  set_led_pins (map (fun _ => b) (led_pins s)) s.

(** [self.led_pins[idx].value = True], for [idx] in range *)
Fixpoint list_set {A} (i : nat) (v : A) (l : list A) : list A :=
  match l, i with
  | [], _ => []
  | _ :: l', O => v :: l'
  | x :: l', S i' => x :: list_set i' v l'
  end.

Definition led_on (idx : nat) (s : Lockbox) : Lockbox :=
  set_led_pins (list_set idx true (led_pins s)) s.

(** [self.current_step += 1] *)
Definition advance_step (s : Lockbox) : Lockbox :=
  set_current_step (S (current_step s)) s.

(** [self.failed_attempts += 1] *)
Definition count_failure (s : Lockbox) : Lockbox :=
  set_failed_attempts (S (failed_attempts s)) s.

(** [self.last_activity = time.time()] *)
Definition stamp_activity (s : Lockbox) : Lockbox :=
  set_last_activity (clock s) s.

(** [self.event_log.append(e)], then [pop(0)] above [max_log_entries]. *)
Definition push_log (log : list LogMsg) (e : LogMsg) : list LogMsg :=
  let log' := log ++ [e] in
  if max_log_entries <? List.length log' then tl log' else log'.

Arguments push_log : simpl never.

(** [log_event]: the line goes to standard output and to [event_log];
    the write to the log file is best effort and leaves no trace in the
    object. *)
Definition logged (e : LogMsg) (s : Lockbox) : Lockbox :=
  set_logs (push_log (event_log s) e) (console s ++ [e]) s.

(** [lockout_thread.start()]: the new thread sleeps [lockout_duration]
    seconds from now. *)
Definition thread_started (s : Lockbox) : Lockbox :=
  set_clock_timers (clock s) (timers s ++ [clock s + 1000 * lockout_duration]%Z) s.

(* ================================================================== *)
(** ** Methods as computations on the object *)
(* ================================================================== *)

(** A method call ends with a value or with an exception; either way the
    object is left as the statements run so far made it. *)
Inductive Res (A : Type) :=
| Val (a : A)
| Exc (e : Exn).
Arguments Val {A} a.
Arguments Exc {A} e.

Definition M (A : Type) : Type := Lockbox -> Res A * Lockbox.

Definition ret {A} (a : A) : M A := fun s => (Val a, s).
Definition raise {A} (e : Exn) : M A := fun s => (Exc e, s).
Definition bind {A B} (m : M A) (k : A -> M B) : M B :=
  fun s => match m s with
           | (Val a, s') => k a s'
           | (Exc e, s') => (Exc e, s')
           end.
Definition get {A} (field : Lockbox -> A) : M A := fun s => (Val (field s), s).
Definition modify (w : Lockbox -> Lockbox) : M unit := fun s => (Val tt, w s).

(** [try: m  except Exception as e: h e] *)
Definition try_except {A} (m : M A) (h : Exn -> M A) : M A :=
  fun s => match m s with
           | (Exc e, s') => h e s'
           | r => r
           end.

Declare Scope method_scope.
Delimit Scope method_scope with method.
Notation "x <- m ;; k" := (bind m (fun x => k))
  (at level 61, m at next level, right associativity) : method_scope.
Notation "m ;; k" := (bind m (fun _ => k))
  (at level 61, right associativity) : method_scope.
Local Open Scope method_scope.

(** [for _ in range(n): body] *)
Fixpoint repeatM (n : nat) (body : M unit) : M unit :=
  match n with
  | O => ret tt
  | S n' => body ;; repeatM n' body
  end.

Definition log_event (e : LogMsg) : M unit := modify (logged e).

(** [reset_system] *)
Definition reset_system : M unit :=
  modify (leds_all false) ;;
  modify (set_current_step 0) ;;
  modify (set_unlocked false) ;;
  modify (set_status_led false) ;;
  log_event LogReset.

(** [lockout_timer], from the moment its [time.sleep(self.lockout_duration)]
    returns.  Its first line is logged when the thread is started, see
    [initiate_lockout]. *)
Definition lockout_timer : M unit :=
  modify (set_system_locked false) ;;
  modify (set_failed_attempts 0) ;;
  reset_system ;;
  log_event LogLockoutExpired.

(** [time.sleep(ms / 1000)] in the main thread: the clock advances, and
    every [lockout_timer] thread whose wake-up time has come runs to its
    end meanwhile. *)
Definition due (now : Z) (w : Z) : bool := (w <=? now)%Z.

(** Each thread of [woken] runs [lockout_timer] to its end. *)
Fixpoint wake (woken : list Z) : M unit :=
  match woken with
  | [] => ret tt
  | _ :: rest => lockout_timer ;; wake rest
  end.

Definition sleep (ms : Z) : M unit :=
  fun s =>
    let now := (clock s + ms)%Z in
    let woken := filter (due now) (timers s) in
    let asleep := filter (fun w => negb (due now w)) (timers s) in
    (Val tt, snd (wake woken (set_clock_timers now asleep s))).

(** [audio_feedback] *)
Definition audio_feedback (pattern : Pattern) : M unit :=
  hw <- get hardware_available ;;
  if negb hw then log_event (LogAudioMock pattern)
  else match pattern with
       | Single => sleep 100
       | Success => repeatM 3 (sleep 100 ;; sleep 100)
       | Error => repeatM 2 (sleep 300 ;; sleep 100)
       end.

(** [initiate_lockout] *)
Definition initiate_lockout : M unit :=
  modify (set_system_locked true) ;;
  n <- get failed_attempts ;;
  log_event (LogLockout n) ;;
  repeatM 10 (modify (leds_all true) ;;
              modify (set_status_led true) ;;
              sleep 200 ;;
              modify (leds_all false) ;;
              modify (set_status_led false) ;;
              sleep 200) ;;
  audio_feedback Error ;;
  log_event (LogTimerStarted lockout_duration) ;;
  modify thread_started.

(** What one input line shows while the scan is at it: released at the
    first read; pressed at the first read and released 50 ms later; or
    pressed at both reads and then for [polls] further reads of the
    wait-for-release loop. *)
Inductive Line :=
| Released
| Bounce
| Held (polls : nat).

(** [while not button.value: time.sleep(0.01)] *)
Definition wait_release (polls : nat) : M unit := repeatM polls (sleep 10).

(** [check_tree_buttons], lines 314-336: a confirmed press of button
    [idx]. *)
Definition wrong_button (idx : nat) : M unit :=
  step <- get current_step ;;
  log_event (LogIncorrect idx step) ;;
  audio_feedback Error ;;
  modify count_failure ;;
  reset_system ;;
  failed <- get failed_attempts ;;
  if max_attempts <=? failed then initiate_lockout else ret tt.

Definition right_button (idx : nat) : M unit :=
  leds <- get led_pins ;;
  (if idx <? List.length leds then modify (led_on idx) else raise IndexError) ;;
  modify advance_step ;;
  step <- get current_step ;;
  log_event (LogCorrect idx step) ;;
  path <- get correct_path ;;
  if List.length path <=? step then
    modify (set_unlocked true) ;;
    modify (set_status_led true) ;;
    audio_feedback Success ;;
    log_event LogSequenceDone
  else ret tt.

Definition press (idx : nat) : M unit :=
  step <- get current_step ;;
  log_event (LogButton idx step) ;;
  audio_feedback Single ;;
  path <- get correct_path ;;
  step <- get current_step ;;
  match nth_error path step with
  | None => raise IndexError
  | Some expected =>
      if (Z.of_nat idx =? expected)%Z then right_button idx else wrong_button idx
  end.

(** The body of the loop of [check_tree_buttons] for one button. *)
Definition scan_button (idx : nat) (button : Line) : M unit :=
  match button with
  | Released => ret tt
  | Bounce => sleep 50
  | Held polls =>
      sleep 50 ;;
      press idx ;;
      wait_release polls ;;
      modify stamp_activity
  end.

Fixpoint scan_buttons (idx : nat) (button_pins : list Line) : M unit :=
  match button_pins with
  | [] => ret tt
  | button :: rest =>
      if 31 <=? idx then ret tt
      else scan_button idx button ;; scan_buttons (S idx) rest
  end.

(** [check_tree_buttons]; [button_pins] is what the buttons show during
    this pass. *)
Definition check_tree_buttons (button_pins : list Line) : M unit :=
  locked <- get system_locked ;;
  if locked then ret tt else scan_buttons 0 button_pins.

(** [scan_keypad]; [cells col row] is what the row line shows while the
    column is driven low.  The key is [keypad_keys[row][col]]; both
    indices come from enumerating three pins. *)
Definition Keypad : Type := nat -> nat -> Line.

Definition key_at (row col : nat) : ascii :=
  nth col (nth row keypad_keys []) "0"%char.

Fixpoint scan_rows (cells : Keypad) (col : nat) (rows : list nat)
  : M (option ascii) :=
  match rows with
  | [] => ret None
  | row :: rest =>
      match cells col row with
      | Released => scan_rows cells col rest
      | Bounce => sleep 50 ;; scan_rows cells col rest
      | Held polls =>
          sleep 50 ;;
          wait_release polls ;;
          audio_feedback Single ;;
          ret (Some (key_at row col))
      end
  end.

Fixpoint scan_cols (cells : Keypad) (cols : list nat) : M (option ascii) :=
  match cols with
  | [] => ret None
  | col :: rest =>
      sleep 1 ;;
      key <- scan_rows cells col (seq 0 (List.length keypad_row_pins)) ;;
      match key with
      | Some k => ret (Some k)
      | None => scan_cols cells rest
      end
  end.

Definition scan_keypad (cells : Keypad) : M (option ascii) :=
  scan_cols cells (seq 0 (List.length keypad_col_pins)).

(** [unlock_mechanism] *)
Definition unlock_mechanism : M unit :=
  hw <- get hardware_available ;;
  if negb hw then log_event LogUnlockMock
  else
    log_event LogUnlockStart ;;
    sleep 1000 ;;
    sleep 2000 ;;
    sleep 500 ;;
    audio_feedback Success ;;
    log_event LogUnlockDone.

(** [admin_mode] *)
Definition admin_mode : M unit :=
  log_event LogAdminOn ;;
  audio_feedback Success ;;
  repeatM 5 (modify (set_status_led true) ;;
             sleep 200 ;;
             modify (set_status_led false) ;;
             sleep 200) ;;
  log_event LogAdminDone.

(** [handle_pin_entry], lines 457-473: the four digits are in. *)
Definition verify_pin (entered_pin : string) : M bool :=
  pin_hash <- get correct_pin_hash ;;
  if String.eqb (hash_pin entered_pin) pin_hash then
    log_event LogPinOk ;;
    unlock_mechanism ;;
    ret true
  else
    admin_hash <- get admin_pin_hash ;;
    if String.eqb (hash_pin entered_pin) admin_hash then
      log_event LogAdminPin ;;
      admin_mode ;;
      ret true
    else
      log_event LogInvalidPin ;;
      audio_feedback Error ;;
      modify count_failure ;;
      failed <- get failed_attempts ;;
      (if max_attempts <=? failed then initiate_lockout else ret tt) ;;
      ret false.

(** The [while True] loop of [handle_pin_entry].  [scans] holds what the
    keypad shows at each successive call of [scan_keypad]; the loop
    answers [None] when it is still running after the last of them. *)
Fixpoint pin_loop (scans : list Keypad) (entered_pin : string) (start_time : Z)
  : M (option bool) :=
  now <- get clock ;;
  if (1000 * pin_timeout <? now - start_time)%Z then
    log_event LogPinTimeout ;;
    audio_feedback Error ;;
    ret (Some false)
  else
    match scans with
    | [] => ret None
    | cells :: rest =>
        key <- scan_keypad cells ;;
        match key with
        | Some k =>
            log_event (LogKey k) ;;
            let entered_pin := (entered_pin ++ String k EmptyString)%string in
            if String.length entered_pin =? 4 then
              ok <- verify_pin entered_pin ;;
              ret (Some ok)
            else
              start_time <- get clock ;;
              sleep 100 ;;
              pin_loop rest entered_pin start_time
        | None =>
            sleep 100 ;;
            pin_loop rest entered_pin start_time
        end
    end.

Definition handle_pin_entry (scans : list Keypad) : M (option bool) :=
  start_time <- get clock ;;
  log_event LogPinPhase ;;
  pin_loop scans EmptyString start_time.

(** [cleanup] *)
Definition cleanup : M unit :=
  log_event LogCleanup ;;
  log_event LogShutdown.

(** One turn of the [while True] of [main_loop]: what the buttons show
    if they are scanned, and what the keypad shows at each scan if the
    PIN phase is entered. *)
Record Turn := mkTurn {
  buttons : list Line;
  keypad : list Keypad
}.

(** Where the main loop is when the recorded turns end. *)
Inductive Status :=
| Polling      (* at the top of the loop *)
| EnteringPin  (* inside [handle_pin_entry] *)
| Exited.      (* [main_loop] has returned *)

(** What [main_loop] does with the answer of [handle_pin_entry]. *)
Definition after_pin (answer : option bool) : M bool :=
  match answer with
  | Some true => sleep 5000 ;; reset_system ;; ret true
  | Some false => reset_system ;; ret true
  | None => ret false
  end.

Definition turn (t : Turn) : M bool :=
  locked <- get system_locked ;;
  if negb locked then
    check_tree_buttons (buttons t) ;;
    seq_done <- get unlocked ;;
    if seq_done then
      answer <- handle_pin_entry (keypad t) ;;
      after_pin answer
    else ret true
  else ret true.

Fixpoint turns (ts : list Turn) : M Status :=
  match ts with
  | [] => ret Polling
  | t :: rest =>
      continue <- turn t ;;
      if continue then sleep 100 ;; turns rest
      else ret EnteringPin
  end.

(** [main_loop] on the recorded turns. *)
Definition main_loop (ts : list Turn) : M Status :=
  log_event LogStarted ;;
  try_except (turns ts)
    (fun e => log_event (LogSystemError e) ;; cleanup ;; ret Exited).

(** The object as [__init__] leaves it. *)
Definition boot (hw : bool) (path : list Z) (pin_hash admin_hash : string)
  : Lockbox :=
  {| hardware_available := hw;
     correct_path := path;
     correct_pin_hash := pin_hash;
     admin_pin_hash := admin_hash;
     current_step := 0;
     unlocked := false;
     system_locked := false;
     failed_attempts := 0;
     last_activity := 0%Z;
     event_log := [LogInitialized];
     led_pins := repeat false 31;
     status_led := false;
     console := [LogInitialized];
     clock := 0%Z;
     timers := [] |}.

(** The default configuration of [load_configuration]. *)
Definition default_path : list Z := [0; 1; 3; 7; 15]%Z.

Definition default_boot (hw : bool) : Lockbox :=
  boot hw default_path (hash_pin "1234") (hash_pin "9999").

(* ================================================================== *)
(** ** What an observer reads off the log *)
(* ================================================================== *)

Definition pattern_name (p : Pattern) : string :=
  match p with
  | Single => "single"
  | Success => "success"
  | Error => "error"
  end.

Definition exn_text (e : Exn) : string :=
  match e with
  | IndexError => "list index out of range"
  end.

Definition dec (n : nat) : string := NilEmpty.string_of_uint (Nat.to_uint n).

(** The text of each line, as the source formats it. *)
Definition render (m : LogMsg) : string :=
  match m with
  | LogInitialized => "System initialized successfully"
  | LogAudioMock p => "Audio feedback: " ++ pattern_name p ++ " (mock mode)"
  | LogReset => "System reset completed"
  | LogButton idx step => "Button " ++ dec idx ++ " pressed at step " ++ dec step
  | LogCorrect idx step =>
      "Correct button " ++ dec idx ++ ", advancing to step " ++ dec step
  | LogSequenceDone => "Binary tree sequence completed successfully"
  | LogIncorrect idx step =>
      "Incorrect button " ++ dec idx ++ " at step " ++ dec step
  | LogUnlockMock => "Unlock mechanism triggered (mock mode)"
  | LogUnlockStart => "Initiating unlock sequence"
  | LogUnlockDone => "Mechanism unlocked successfully"
  | LogLockout n => "SECURITY LOCKOUT: " ++ dec n ++ " failed attempts"
  | LogTimerStarted d =>
      "Lockout timer started for " ++ dec (Z.to_nat d) ++ " seconds"
  | LogLockoutExpired => "System lockout expired - normal operation resumed"
  | LogPinPhase => "PIN entry phase initiated"
  | LogPinTimeout => "PIN entry timeout"
  | LogKey k => "Key pressed: " ++ String k EmptyString
  | LogPinOk => "PIN verification successful"
  | LogAdminPin => "Admin PIN verified"
  | LogInvalidPin => "Invalid PIN entered"
  | LogAdminOn => "Admin mode activated"
  | LogAdminDone => "Admin mode operations completed"
  | LogStarted => "System started - waiting for input"
  | LogSystemError e => "System error: " ++ exn_text e
  | LogCleanup => "Cleaning up system resources"
  | LogShutdown => "System shutdown complete"
  end%string.

Definition count_lines (p : LogMsg -> bool) (out : list LogMsg) : nat :=
  List.length (filter p out).

Definition is_expiry (m : LogMsg) : bool :=
  match m with LogLockoutExpired => true | _ => false end.

(** [unlock_mechanism] writes one of these two lines first, whatever the
    hardware. *)
Definition is_actuation (m : LogMsg) : bool :=
  match m with LogUnlockMock | LogUnlockStart => true | _ => false end.

Definition is_admin_entry (m : LogMsg) : bool :=
  match m with LogAdminOn => true | _ => false end.

Definition is_pin_phase (m : LogMsg) : bool :=
  match m with LogPinPhase => true | _ => false end.

(** How many cooldown threads have run to their end so far. *)
Definition expiries (s : Lockbox) : nat := count_lines is_expiry (console s).

(** How many times the actuator has been triggered so far. *)
Definition actuations (s : Lockbox) : nat := count_lines is_actuation (console s).

(** How many times admin mode has been entered so far. *)
Definition admin_entries (s : Lockbox) : nat :=
  count_lines is_admin_entry (console s).

(** The object without its two log sinks. *)
Definition silent (s : Lockbox) : Lockbox := set_logs [] [] s.

(** *** Inputs used in the statements *)

(** A scan pass during which exactly the buttons of [held] are pressed,
    button [i] for [hold i] reads of its wait-for-release loop. *)
Definition pass (held : list nat) (hold : nat -> nat) : list Line :=
  map (fun i => if existsb (Nat.eqb i) held then Held (hold i) else Released)
      (seq 0 31).

(** No button pressed. *)
Definition quiet_pass : list Line := pass [] (fun _ => 0).

(** A keypad with no key pressed, and one with the key of row [row] and
    column [col] pressed for [polls] reads. *)
Definition no_key : Keypad := fun _ _ => Released.

Definition one_key (row col polls : nat) : Keypad :=
  fun c r => if (c =? col) && (r =? row) then Held polls else Released.

(** The key a scan returns depends on the keypad alone. *)
Fixpoint first_row (cells : Keypad) (col : nat) (rows : list nat) : option ascii :=
  match rows with
  | [] => None
  | row :: rest =>
      match cells col row with
      | Held _ => Some (key_at row col)
      | _ => first_row cells col rest
      end
  end.

Fixpoint first_col (cells : Keypad) (cols : list nat) : option ascii :=
  match cols with
  | [] => None
  | col :: rest =>
      match first_row cells col (seq 0 (List.length keypad_row_pins)) with
      | Some k => Some k
      | None => first_col cells rest
      end
  end.

Definition scanned_key (cells : Keypad) : option ascii :=
  first_col cells (seq 0 (List.length keypad_col_pins)).

(* ================================================================== *)
(** ** Notions used in the statements *)
(* ================================================================== *)

(** [carries R m]: whatever the start, running [m] takes the object to one
    related to the start by [R]. *)
Definition carries (R : Lockbox -> Lockbox -> Prop) {A} (m : M A) : Prop :=
  forall s, R s (snd (m s)).

(** The field writes the main thread performs. *)
Inductive main_write : (Lockbox -> Lockbox) -> Prop :=
| mw_leds b : main_write (leds_all b)
| mw_step0 : main_write (set_current_step 0)
| mw_unlocked b : main_write (set_unlocked b)
| mw_status b : main_write (set_status_led b)
| mw_lock : main_write (set_system_locked true)
| mw_fail : main_write count_failure
| mw_led_on idx : main_write (led_on idx)
| mw_advance : main_write advance_step
| mw_stamp : main_write stamp_activity
| mw_thread : main_write thread_started.


(** The configuration and the session fields, each as one tuple. *)
Definition config (s : Lockbox) : bool * list Z * string * string :=
  (hardware_available s, correct_path s, correct_pin_hash s, admin_pin_hash s).

Definition session (s : Lockbox)
  : nat * bool * bool * nat * list bool * bool * Z :=
  (current_step s, unlocked s, system_locked s, failed_attempts s,
   led_pins s, status_led s, last_activity s).

(** [no_reset s s']: between [s] and [s'], unless a cooldown thread ran to
    its end, the failure counter did not go down and a lockout was not
    lifted. *)
Definition no_reset (s s' : Lockbox) : Prop :=
  expiries s <= expiries s' /\
  (expiries s' = expiries s ->
   failed_attempts s <= failed_attempts s' /\
   (system_locked s = true -> system_locked s' = true)).

(** [pending_from T s]: no cooldown thread of [s], nor one started from
    now on, wakes before [T]. *)
Definition pending_from (T : Z) (s : Lockbox) : Prop :=
  (T - 1000 * lockout_duration <= clock s)%Z /\
  Forall (fun w => (T <= w)%Z) (timers s).

(** [asleep_until T s s']: the clock does not go back, and if no thread
    wakes before [T] then none has run to its end while the clock is
    below [T]. *)
Definition asleep_until (T : Z) (s s' : Lockbox) : Prop :=
  (clock s <= clock s')%Z /\
  (pending_from T s ->
   pending_from T s' /\ ((clock s' < T)%Z -> expiries s' = expiries s)).

(** [same_config s s']: the loaded credentials, the hardware flag and the
    number of LEDs are those of [s]. *)
Definition same_config (s s' : Lockbox) : Prop :=
  config s' = config s /\ List.length (led_pins s') = List.length (led_pins s).

(** [calm s s']: with no cooldown thread pending in [s], only the clock
    and the log sinks differ in [s'], and the log gained no actuation, no
    admin entry and no expiry. *)
Definition calm (s s' : Lockbox) : Prop :=
  timers s = [] ->
  timers s' = [] /\ config s' = config s /\ session s' = session s /\
  actuations s' = actuations s /\ admin_entries s' = admin_entries s /\
  expiries s' = expiries s /\ (clock s <= clock s')%Z.

(** [tally s]: the lockout flag agrees with the counter. *)
Definition tally (s : Lockbox) : Prop :=
  (failed_attempts s < max_attempts /\ system_locked s = false /\ timers s = [])
  \/ (max_attempts <= failed_attempts s /\ system_locked s = true).

Definition third_locks (s s' : Lockbox) : Prop :=
  no_reset s s' /\ (expiries s' = expiries s -> tally s -> tally s').

(** A failure is a confirmed press of a button other than the one the
    path expects, or a complete PIN that matches neither hash. *)
Inductive Failure :=
| WrongButton (idx : nat)
| WrongPin (pin : string).

Definition fails (f : Failure) (s : Lockbox) : Prop :=
  match f with
  | WrongButton idx =>
      exists expected,
        nth_error (correct_path s) (current_step s) = Some expected /\
        Z.of_nat idx <> expected
  | WrongPin pin =>
      hash_pin pin <> correct_pin_hash s /\ hash_pin pin <> admin_pin_hash s
  end.

(** What the program runs on that input. *)
Definition failure (f : Failure) : M unit :=
  match f with
  | WrongButton idx => press idx
  | WrongPin pin => (_ <- verify_pin pin ;; ret tt)%method
  end.

(** The idle baseline of the sequence check on the default path. *)
Definition baseline (s : Lockbox) : Prop :=
  correct_path s = default_path /\ current_step s = 0 /\
  unlocked s = false /\ system_locked s = false /\ timers s = [] /\
  List.length (led_pins s) = 31.

(** A turn of the main loop during which nothing is pressed. *)
Definition idle : Turn := mkTurn quiet_pass [].

(** *** Recorded runs *)

(** One button pressed and let go after [polls] reads. *)
Definition tap (idx polls : nat) : Turn := mkTurn (pass [idx] (fun _ => polls)) [].

(** The keys 1, 2, 3, 4, one scan each. *)
Definition keys_1234 : list Keypad :=
  [one_key 0 0 2; one_key 0 1 2; one_key 0 2 2; one_key 1 0 2].

(** A wrong button, then the default sequence and the primary PIN. *)
Definition slip_then_unlock : list Turn :=
  [tap 2 3; tap 0 3; tap 1 3; tap 3 3; tap 7 3;
   mkTurn (pass [15] (fun _ => 3)) keys_1234].

(** The first four buttons of the default sequence one turn each, then
    buttons 15 and 16 down during the same pass. *)
Definition two_at_the_end : list Turn :=
  [tap 0 3; tap 1 3; tap 3 3; tap 7 3; mkTurn (pass [15; 16] (fun _ => 3)) []].

(** Buttons 1, 2, 3 and 4 down during one pass. *)
Definition four_wrong : list Line := pass [1; 2; 3; 4] (fun _ => 0).

(** The same, button 3 being held for ten seconds. *)
Definition four_wrong_slow : list Line :=
  pass [1; 2; 3; 4] (fun i => if i =? 3 then 1000 else 0).

(* ================================================================== *)
(** ** Further notions *)
(* ================================================================== *)

(** A line that shows no confirmed press: released, or released again
    at the second read. *)
Definition unpressed (b : Line) : bool :=
  match b with
  | Held _ => false
  | _ => true
  end.

(** The time a scan pass spends on lines that show no confirmed press:
    50 ms for each bounce among the first 31 lines. *)
Fixpoint bounce_time (idx : nat) (button_pins : list Line) : Z :=
  match button_pins with
  | [] => 0
  | b :: rest =>
      if 31 <=? idx then 0
      else (match b with Bounce => 50 | _ => 0 end
            + bounce_time (S idx) rest)%Z
  end.

(** The time the turns of a run spend when no button is pressed and the
    PIN phase is not entered. *)
Fixpoint unpressed_time (ts : list Turn) : Z :=
  match ts with
  | [] => 0
  | t :: rest => (bounce_time 0 (buttons t) + 100 + unpressed_time rest)%Z
  end.

(** The keys of the keypad. *)
Definition keypad_digits : list ascii :=
  ["1"; "2"; "3"; "4"; "5"; "6"; "7"; "8"; "9"]%char.

(** The object [d] milliseconds later, nothing else having happened. *)
Definition later (d : Z) (s : Lockbox) : Lockbox :=
  set_clock_timers (clock s + d) (timers s) s.

(** The last [n] entries of a list. *)
Definition last_entries {A} (n : nat) (l : list A) : list A :=
  skipn (List.length l - n) l.

(** [keeps P s s']: if [P] holds of the two log sinks of [s], it holds of
    those of [s']. *)
Definition keeps (P : list LogMsg -> list LogMsg -> Prop) (s s' : Lockbox) : Prop :=
  P (event_log s) (console s) -> P (event_log s') (console s').

(** The characters of a hexadecimal digest. *)
Definition hex_digits : list ascii :=
  ["0"; "1"; "2"; "3"; "4"; "5"; "6"; "7"; "8"; "9";
   "a"; "b"; "c"; "d"; "e"; "f"]%char.

(** The line [handle_pin_entry] logs when the PIN matches the primary
    hash, and how many times it has been logged so far. *)
Definition is_pin_ok (m : LogMsg) : bool :=
  match m with LogPinOk => true | _ => false end.

Definition pin_oks (s : Lockbox) : nat := count_lines is_pin_ok (console s).

(** A PIN the keypad can produce: four of its nine characters. *)
Definition keypad_pin (pin : string) : Prop :=
  String.length pin = 4 /\
  Forall (fun c => In c keypad_digits) (list_ascii_of_string pin).

(** [paired s s']: between [s] and [s'] the actuator was triggered as
    many times as a PIN was verified against the primary hash. *)
Definition paired (s s' : Lockbox) : Prop :=
  actuations s' + pin_oks s = actuations s + pin_oks s'.

(** [shut s s']: if no PIN the keypad can produce has the primary hash of
    [s], the hash is the same in [s'] and the actuator was not triggered
    in between. *)
Definition shut (s s' : Lockbox) : Prop :=
  (forall pin, keypad_pin pin -> hash_pin pin <> correct_pin_hash s) ->
  correct_pin_hash s' = correct_pin_hash s /\
  actuations s' = actuations s /\ pin_oks s' = pin_oks s.

(* ================================================================== *)
(** ** Construction: [__init__] and the configuration file *)
(* ================================================================== *)

(** While [__init__] runs, an attribute exists only once it has been
    assigned; the object under construction holds each attribute the
    start-up code reads as an option.  The pin numbers, the pin lists and
    the session variables are assigned and not read back during
    construction; they are left out. *)

(** What start-up can raise. *)
Inductive StartExn :=
| AttributeError (attribute : string)  (* reading an attribute not yet assigned *)
| ConfigError      (* [open] or [json.load], other than [FileNotFoundError] *)
| WriteError       (* [open(..., 'w')] in [save_configuration] *)
| BusError.        (* the I2C bus or an expander *)

(** The lines start-up gives to [log_event]. *)
Inductive StartMsg :=
| MsgDefaultConfig
| MsgMockMode
| MsgExpandersReady
| MsgExpandersFailed (e : StartExn)
| MsgInitialized.

(** The configuration file: absent; not readable as a JSON object; or an
    object, of which [load_configuration] reads three keys, each present
    or not, with values of the types [save_configuration] writes. *)
Inductive ConfigFile :=
| Absent
| Unreadable
| Holds (tree_sequence : option (list Z)) (pin_hash admin_hash : option string).

(** What the platform decides: [HARDWARE_AVAILABLE], whether the
    configuration file can be written, and whether the I2C expanders
    answer. *)
Record Platform := mkPlatform {
  hardware : bool;
  writable : bool;
  bus_ok : bool
}.

Record Draft := mkDraft {
  a_hardware_available : option bool;
  a_correct_path : option (list Z);
  a_correct_pin_hash : option string;
  a_admin_pin_hash : option string;
  a_event_log : option (list StartMsg);
  a_max_log_entries : option nat;
  (* the world: standard output and the configuration file *)
  printed : list StartMsg;
  disk : ConfigFile
}.

(** The object before the first statement of [__init__]. *)
Definition blank (file : ConfigFile) : Draft :=
  mkDraft None None None None None None [] file.

Inductive Outcome (A : Type) :=
| Done (a : A)
| Failed (e : StartExn).
Arguments Done {A} a.
Arguments Failed {A} e.

Definition Start (A : Type) : Type := Draft -> Outcome A * Draft.

Definition start_ret {A} (a : A) : Start A := fun d => (Done a, d).
Definition start_raise {A} (e : StartExn) : Start A := fun d => (Failed e, d).
Definition start_bind {A B} (m : Start A) (k : A -> Start B) : Start B :=
  fun d => match m d with
           | (Done a, d') => k a d'
           | (Failed e, d') => (Failed e, d')
           end.
Definition start_try {A} (m : Start A) (h : StartExn -> Start A) : Start A :=
  fun d => match m d with
           | (Failed e, d') => h e d'
           | r => r
           end.

(** [self.attribute], which raises when the attribute is not there. *)
Definition attribute {A} (name : string) (field : Draft -> option A) : Start A :=
  fun d => match field d with
           | Some v => (Done v, d)
           | None => (Failed (AttributeError name), d)
           end.

Definition assign (w : Draft -> Draft) : Start unit := fun d => (Done tt, w d).

Declare Scope start_scope.
Delimit Scope start_scope with start.
Notation "x <- m ;; k" := (start_bind m (fun x => k))
  (at level 61, m at next level, right associativity) : start_scope.
Notation "m ;; k" := (start_bind m (fun _ => k))
  (at level 61, right associativity) : start_scope.

Definition set_hardware (v : bool) (d : Draft) : Draft :=
  mkDraft (Some v) (a_correct_path d) (a_correct_pin_hash d)
          (a_admin_pin_hash d) (a_event_log d) (a_max_log_entries d)
          (printed d) (disk d).

Definition set_credentials (path : list Z) (pin admin : string) (d : Draft)
  : Draft :=
  mkDraft (a_hardware_available d) (Some path) (Some pin) (Some admin)
          (a_event_log d) (a_max_log_entries d) (printed d) (disk d).

Definition set_event_log (log : list StartMsg) (d : Draft) : Draft :=
  mkDraft (a_hardware_available d) (a_correct_path d) (a_correct_pin_hash d)
          (a_admin_pin_hash d) (Some log) (a_max_log_entries d)
          (printed d) (disk d).

Definition set_max_log_entries (n : nat) (d : Draft) : Draft :=
  mkDraft (a_hardware_available d) (a_correct_path d) (a_correct_pin_hash d)
          (a_admin_pin_hash d) (a_event_log d) (Some n) (printed d) (disk d).

Definition print (m : StartMsg) (d : Draft) : Draft :=
  mkDraft (a_hardware_available d) (a_correct_path d) (a_correct_pin_hash d)
          (a_admin_pin_hash d) (a_event_log d) (a_max_log_entries d)
          (printed d ++ [m]) (disk d).

Definition write_file (f : ConfigFile) (d : Draft) : Draft :=
  mkDraft (a_hardware_available d) (a_correct_path d) (a_correct_pin_hash d)
          (a_admin_pin_hash d) (a_event_log d) (a_max_log_entries d)
          (printed d) f.

(** [log_event] on the object under construction: the line is printed,
    then appended to [self.event_log], then the length of the log is
    compared with [self.max_log_entries]. *)
Definition start_log_event (m : StartMsg) : Start unit :=
  (assign (print m) ;;
   log <- attribute "event_log" a_event_log ;;
   assign (set_event_log (log ++ [m])) ;;
   bound <- attribute "max_log_entries" a_max_log_entries ;;
   if bound <? List.length (log ++ [m])
   then assign (set_event_log (tl (log ++ [m])))
   else start_ret tt)%start.

(** [save_configuration] *)
Definition save_configuration (p : Platform) : Start unit :=
  (path <- attribute "correct_path" a_correct_path ;;
   pin <- attribute "correct_pin_hash" a_correct_pin_hash ;;
   admin <- attribute "admin_pin_hash" a_admin_pin_hash ;;
   if writable p
   then assign (write_file (Holds (Some path) (Some pin) (Some admin)))
   else start_raise WriteError)%start.

(** [config.get(key, default)] *)
Definition get_or {A} (value : option A) (default : A) : A :=
  match value with
  | Some v => v
  | None => default
  end.

(** [load_configuration] *)
Definition load_configuration (p : Platform) : Start unit :=
  fun d =>
    match disk d with
    | Holds tree_sequence pin_hash admin_hash =>
        assign (set_credentials (get_or tree_sequence default_path)
                                (get_or pin_hash (hash_pin "1234"))
                                (get_or admin_hash (hash_pin "9999"))) d
    | Absent =>
        (assign (set_credentials default_path (hash_pin "1234") (hash_pin "9999")) ;;
         save_configuration p ;;
         start_log_event MsgDefaultConfig)%start d
    | Unreadable => start_raise ConfigError d
    end.

(** [setup_gpio_expanders]; the pins it creates are not read during
    construction. *)
Definition setup_gpio_expanders (p : Platform) : Start unit :=
  if negb (hardware p) then start_log_event MsgMockMode
  else
    start_try
      ((if bus_ok p then start_ret tt else start_raise BusError) ;;
       start_log_event MsgExpandersReady)%start
      (fun e => (start_log_event (MsgExpandersFailed e) ;; start_raise e)%start).

(** [__init__] *)
Definition init (p : Platform) : Start unit :=
  (assign (set_hardware (hardware p)) ;;
   load_configuration p ;;
   setup_gpio_expanders p ;;
   assign (set_event_log []) ;;
   assign (set_max_log_entries 1000) ;;
   start_log_event MsgInitialized)%start.

(* ================================================================== *)
(** ** Notions for the runs that never stop *)
(* ================================================================== *)

(** The field writes made outside [reset_system] and outside the branch
    of the correct button. *)
Inductive side_write : (Lockbox -> Lockbox) -> Prop :=
| sw_leds b : side_write (leds_all b)
| sw_status b : side_write (set_status_led b)
| sw_lock : side_write (set_system_locked true)
| sw_fail : side_write count_failure
| sw_stamp : side_write stamp_activity
| sw_thread : side_write thread_started.

(** [holds P m]: from an object that satisfies [P], the method [m]
    raises nothing and leaves an object that satisfies [P]. *)
Definition holds (P : Lockbox -> Prop) {A} (m : M A) : Prop :=
  forall s, P s -> (exists a, fst (m s) = Val a) /\ P (snd (m s)).

(** The path is not empty and there is a LED for each of the 31
    buttons. *)
Definition sound (s : Lockbox) : Prop :=
  correct_path s <> [] /\ List.length (led_pins s) = 31.

(** [ready s]: the next press can be checked against the path. *)
Definition ready (s : Lockbox) : Prop :=
  sound s /\ current_step s < List.length (correct_path s).

(** [settled s]: the sequence is complete, or the next press can be
    checked. *)
Definition settled (s : Lockbox) : Prop :=
  sound s /\
  (unlocked s = true \/ current_step s < List.length (correct_path s)).

(** How many of the lines of a pass show a confirmed press. *)
Definition presses (button_pins : list Line) : nat :=
  List.length (filter (fun b => negb (unpressed b)) button_pins).

(* ================================================================== *)
(** ** The digest on known inputs *)
(* ================================================================== *)

Lemma constants_from_primes :
  Sha256.H0 = map Sha256.frac_sqrt (firstn 8 Sha256.first_primes) /\
  Sha256.K = map Sha256.frac_cbrt Sha256.first_primes.
Proof. vm_compute. split; reflexivity. Qed.

Example sha256_abc :
  Sha256.hexdigest "abc"
  = "ba7816bf8f01cfea414140de5dae2223b00361a396177a9cb410ff61f20015ad"%string.
Proof. vm_compute. reflexivity. Qed.

Example sha256_two_blocks :
  Sha256.hexdigest
    "aaaaaaaaaaaaaaaaaaaaaaaaaaaaaaaaaaaaaaaaaaaaaaaaaaaaaaaaaaaaaaaaaaaaaa"
  = "6bd5e5034855a11241f0dee8fc72850ffd9955b28347a86428b5fa19119f6ad0"%string.
Proof. vm_compute. reflexivity. Qed.

Example hash_pin_1234 :
  hash_pin "1234"
  = "7a9126def444794fa94ebdc9829d5958273684682fd7ea0d7faaeb2e7dfe8902"%string.
Proof. vm_compute. reflexivity. Qed.

Example hash_pin_9999 :
  hash_pin "9999"
  = "ad00e27696f2ff93707072c8b61b237c31e1bd51de4c88f7db41484cf9943bef"%string.
Proof. vm_compute. reflexivity. Qed.

(** "1234" and "1235" have different digests. *)
Example hash_pin_1234_1235 : hash_pin "1234" <> hash_pin "1235".
Proof.
  intro H.
  assert (E : String.eqb (hash_pin "1234") (hash_pin "1235") = true)
    by (apply String.eqb_eq; exact H).
  vm_compute in E. discriminate E.
Qed.

(* ================================================================== *)
(** ** Relations carried by every method *)
(* ================================================================== *)

Section Carry.
Context {R : Lockbox -> Lockbox -> Prop}.
Hypothesis R_refl : forall s, R s s.
Hypothesis R_trans : forall a b c, R a b -> R b c -> R a c.

Lemma carries_ret {A} (a : A) : carries R (ret a).
Proof. intro s. apply R_refl. Qed.

Lemma carries_raise {A} (e : Exn) : carries R (@raise A e).
Proof. intro s. apply R_refl. Qed.

Lemma carries_get {A} (f : Lockbox -> A) : carries R (get f).
Proof. intro s. apply R_refl. Qed.

Lemma carries_bind {A B} (m : M A) (k : A -> M B) :
  carries R m -> (forall a, carries R (k a)) -> carries R (bind m k).
Proof.
  intros Hm Hk s. unfold bind. specialize (Hm s).
  destruct (m s) as [[a|e] s']; simpl in *.
  - eapply R_trans; [exact Hm | apply Hk].
  - exact Hm.
Qed.

Lemma carries_try {A} (m : M A) (h : Exn -> M A) :
  carries R m -> (forall e, carries R (h e)) -> carries R (try_except m h).
Proof.
  intros Hm Hh s. unfold try_except. specialize (Hm s).
  destruct (m s) as [[a|e] s']; simpl in *.
  - exact Hm.
  - eapply R_trans; [exact Hm | apply Hh].
Qed.

Lemma carries_repeat (n : nat) (body : M unit) :
  carries R body -> carries R (repeatM n body).
Proof.
  intro Hb. induction n as [|n IH]; simpl.
  - apply carries_ret.
  - apply carries_bind; [exact Hb | intros _; exact IH].
Qed.

End Carry.

(** *** Waiting: sleeping, beeping, scanning the keypad *)

Section Waiting.
Context {R : Lockbox -> Lockbox -> Prop}.
Hypothesis R_refl : forall s, R s s.
Hypothesis R_trans : forall a b c, R a b -> R b c -> R a c.
Hypothesis R_sleep : forall d s, (0 <= d)%Z -> R s (snd (sleep d s)).
Hypothesis R_beep : forall p s, R s (logged (LogAudioMock p) s).

Local Ltac waiting known :=
  repeat first
    [ lazymatch goal with
      | |- carries _ (bind _ _) => apply (carries_bind R_trans); [ | intro ]
      | |- carries _ (ret _) => apply (carries_ret R_refl)
      | |- carries _ (get _) => apply (carries_get R_refl)
      | |- carries _ (repeatM _ _) => apply (carries_repeat R_refl R_trans)
      | |- carries _ (sleep _) => intro; apply R_sleep; discriminate
      | |- carries _ (log_event (LogAudioMock _)) => intro; apply R_beep
      | |- carries _ (if ?b then _ else _) => destruct b
      | |- carries _ (match ?x with _ => _ end) => destruct x
      end
    | known ].

Lemma carries_audio (p : Pattern) : carries R (audio_feedback p).
Proof. unfold audio_feedback. waiting fail. Qed.

Lemma carries_wait (polls : nat) : carries R (wait_release polls).
Proof. unfold wait_release. waiting fail. Qed.

Lemma carries_scan_rows (cells : Keypad) (col : nat) (rows : list nat) :
  carries R (scan_rows cells col rows).
Proof.
  induction rows as [|row rest IH]; cbn [scan_rows].
  - waiting fail.
  - waiting ltac:(first [ exact IH | apply carries_wait | apply carries_audio ]).
Qed.

Lemma carries_scan_cols (cells : Keypad) (cols : list nat) :
  carries R (scan_cols cells cols).
Proof.
  induction cols as [|col rest IH]; cbn [scan_cols].
  - waiting fail.
  - waiting ltac:(first [ exact IH | apply carries_scan_rows ]).
Qed.

Lemma carries_scan_keypad (cells : Keypad) : carries R (scan_keypad cells).
Proof. apply carries_scan_cols. Qed.

End Waiting.

(** *** The methods that write the session fields *)

Section Steps.
Context {R : Lockbox -> Lockbox -> Prop}.
Hypothesis R_refl : forall s, R s s.
Hypothesis R_trans : forall a b c, R a b -> R b c -> R a c.
Hypothesis R_sleep : forall d s, (0 <= d)%Z -> R s (snd (sleep d s)).
Hypothesis R_log : forall e s, is_expiry e = false -> R s (logged e s).
Hypothesis R_write : forall w s, main_write w -> R s (w s).

Local Ltac steps known :=
  repeat first
    [ lazymatch goal with
      | |- carries _ (bind _ _) => apply (carries_bind R_trans); [ | intro ]
      | |- carries _ (ret _) => apply (carries_ret R_refl)
      | |- carries _ (raise _) => apply (carries_raise R_refl)
      | |- carries _ (get _) => apply (carries_get R_refl)
      | |- carries _ (repeatM _ _) => apply (carries_repeat R_refl R_trans)
      | |- carries _ (audio_feedback _) =>
          apply (carries_audio R_refl R_trans R_sleep
                   (fun p s => R_log (LogAudioMock p) s eq_refl))
      | |- carries _ (sleep _) => intro; apply R_sleep; discriminate
      | |- carries _ (log_event _) => intro; apply R_log; reflexivity
      | |- carries _ (modify _) => intro; apply R_write; constructor
      | |- carries _ (if ?b then _ else _) => destruct b
      | |- carries _ (match ?x with _ => _ end) => destruct x
      end
    | known ].

Lemma carries_reset : carries R reset_system.
Proof. unfold reset_system. steps fail. Qed.

Lemma carries_initiate_lockout : carries R initiate_lockout.
Proof. unfold initiate_lockout. steps fail. Qed.

Lemma carries_unlock : carries R unlock_mechanism.
Proof. unfold unlock_mechanism. steps fail. Qed.

Lemma carries_admin : carries R admin_mode.
Proof. unfold admin_mode. steps fail. Qed.

Lemma carries_wrong_button (idx : nat) : carries R (wrong_button idx).
Proof.
  unfold wrong_button.
  steps ltac:(first [ apply carries_reset | apply carries_initiate_lockout ]).
Qed.

Lemma carries_right_button (idx : nat) : carries R (right_button idx).
Proof. unfold right_button. steps fail. Qed.

Lemma carries_press (idx : nat) : carries R (press idx).
Proof.
  unfold press.
  steps ltac:(first [ apply carries_right_button | apply carries_wrong_button ]).
Qed.

Lemma carries_verify (pin : string) : carries R (verify_pin pin).
Proof.
  unfold verify_pin.
  steps ltac:(first [ apply carries_unlock | apply carries_admin
                    | apply carries_initiate_lockout ]).
Qed.

End Steps.

(** *** The scan pass, the PIN phase and the main loop *)

Section Turns.
Context {R : Lockbox -> Lockbox -> Prop}.
Hypothesis R_refl : forall s, R s s.
Hypothesis R_trans : forall a b c, R a b -> R b c -> R a c.
Hypothesis R_sleep : forall d s, (0 <= d)%Z -> R s (snd (sleep d s)).
Hypothesis R_log : forall e s, is_expiry e = false -> R s (logged e s).
Hypothesis R_stamp : forall s, R s (stamp_activity s).
Hypothesis R_reset : carries R reset_system.
Hypothesis R_press : forall idx, carries R (press idx).
Hypothesis R_verify : forall pin, carries R (verify_pin pin).

Local Ltac turning known :=
  repeat first
    [ lazymatch goal with
      | |- carries _ (bind _ _) => apply (carries_bind R_trans); [ | intro ]
      | |- carries _ (ret _) => apply (carries_ret R_refl)
      | |- carries _ (get _) => apply (carries_get R_refl)
      | |- carries _ (audio_feedback _) =>
          apply (carries_audio R_refl R_trans R_sleep
                   (fun p s => R_log (LogAudioMock p) s eq_refl))
      | |- carries _ (wait_release _) =>
          apply (carries_wait R_refl R_trans R_sleep)
      | |- carries _ (scan_keypad _) =>
          apply (carries_scan_keypad R_refl R_trans R_sleep
                   (fun p s => R_log (LogAudioMock p) s eq_refl))
      | |- carries _ reset_system => apply R_reset
      | |- carries _ (press _) => apply R_press
      | |- carries _ (verify_pin _) => apply R_verify
      | |- carries _ (sleep _) => intro; apply R_sleep; discriminate
      | |- carries _ (log_event _) => intro; apply R_log; reflexivity
      | |- carries _ (modify stamp_activity) => intro; apply R_stamp
      | |- carries _ (if ?b then _ else _) => destruct b
      | |- carries _ (match ?x with _ => _ end) => destruct x
      end
    | known ].

Lemma carries_scan_button (idx : nat) (b : Line) : carries R (scan_button idx b).
Proof. unfold scan_button. turning fail. Qed.

Lemma carries_scan_buttons (button_pins : list Line) :
  forall idx, carries R (scan_buttons idx button_pins).
Proof.
  induction button_pins as [|b rest IH]; intro idx; cbn [scan_buttons].
  - turning fail.
  - turning ltac:(first [ apply carries_scan_button | apply IH ]).
Qed.

Lemma carries_check_tree_buttons (button_pins : list Line) :
  carries R (check_tree_buttons button_pins).
Proof.
  unfold check_tree_buttons. turning ltac:(apply carries_scan_buttons).
Qed.

Lemma carries_pin_loop (scans : list Keypad) :
  forall entered start, carries R (pin_loop scans entered start).
Proof.
  induction scans as [|cells rest IH]; intros entered start;
    cbn [pin_loop]; turning ltac:(apply IH).
Qed.

Lemma carries_handle_pin_entry (scans : list Keypad) :
  carries R (handle_pin_entry scans).
Proof.
  unfold handle_pin_entry. turning ltac:(apply carries_pin_loop).
Qed.

Lemma carries_after_pin (answer : option bool) : carries R (after_pin answer).
Proof. unfold after_pin. turning fail. Qed.

Lemma carries_turn (t : Turn) : carries R (turn t).
Proof.
  unfold turn.
  turning ltac:(first [ apply carries_check_tree_buttons
                      | apply carries_handle_pin_entry
                      | apply carries_after_pin ]).
Qed.

Lemma carries_turns (ts : list Turn) : carries R (turns ts).
Proof.
  induction ts as [|t rest IH]; cbn [turns];
    turning ltac:(first [ exact IH | apply carries_turn ]).
Qed.

Lemma carries_main_loop (ts : list Turn) : carries R (main_loop ts).
Proof.
  unfold main_loop, cleanup. turning fail.
  apply (carries_try R_trans).
  - apply carries_turns.
  - intro e. turning fail.
Qed.

End Turns.

(* ================================================================== *)
(** ** Sleeping and the cooldown threads *)
(* ================================================================== *)

Lemma count_lines_app (p : LogMsg -> bool) (l l' : list LogMsg) :
  count_lines p (l ++ l') = count_lines p l + count_lines p l'.
Proof. unfold count_lines. rewrite filter_app, length_app. reflexivity. Qed.

Lemma count_lines_snoc (p : LogMsg -> bool) (l : list LogMsg) (e : LogMsg) :
  count_lines p (l ++ [e]) = count_lines p l + (if p e then 1 else 0).
Proof. rewrite count_lines_app. unfold count_lines. simpl. destruct (p e); reflexivity. Qed.

Lemma expiries_logged (e : LogMsg) (s : Lockbox) :
  expiries (logged e s) = expiries s + (if is_expiry e then 1 else 0).
Proof. unfold expiries. simpl. apply count_lines_snoc. Qed.

(** One cooldown thread running to its end. *)
Lemma lockout_timer_fields (s : Lockbox) :
  let s' := snd (lockout_timer s) in
  fst (lockout_timer s) = Val tt /\
  system_locked s' = false /\ failed_attempts s' = 0 /\
  current_step s' = 0 /\ unlocked s' = false /\
  clock s' = clock s /\ timers s' = timers s /\
  config s' = config s /\
  List.length (led_pins s') = List.length (led_pins s) /\
  expiries s' = S (expiries s) /\
  actuations s' = actuations s /\ admin_entries s' = admin_entries s.
Proof.
  unfold expiries, actuations, admin_entries. simpl.
  rewrite !count_lines_snoc, length_map. simpl.
  repeat split; auto; lia.
Qed.

Lemma woken_fields (woken : list Z) :
  forall s, let s' := snd (wake woken s) in
  clock s' = clock s /\ timers s' = timers s /\
  config s' = config s /\
  List.length (led_pins s') = List.length (led_pins s) /\
  expiries s' = expiries s + List.length woken.
Proof.
  induction woken as [|w woken IH]; intro s.
  - simpl. repeat split; auto.
  - cbn [wake]. unfold bind.
    destruct (lockout_timer_fields s) as (Hv & _ & _ & _ & _ & Hc & Ht & Hg & Hl & He & _).
    destruct (lockout_timer s) as [[[]|e] s1]; simpl in *; [ | discriminate ].
    destruct (IH s1) as (Hc' & Ht' & Hg' & Hl' & He').
    repeat split; try congruence. lia.
Qed.

Lemma filter_none {A} (p : A -> bool) (l : list A) :
  (forall x, In x l -> p x = false) -> filter p l = [].
Proof.
  induction l as [|x l IH]; intro H; simpl; [ reflexivity | ].
  rewrite (H x (or_introl eq_refl)). apply IH. intros y Hy. apply H. now right.
Qed.

Lemma filter_all {A} (p : A -> bool) (l : list A) :
  (forall x, In x l -> p x = true) -> filter p l = l.
Proof.
  induction l as [|x l IH]; intro H; simpl; [ reflexivity | ].
  rewrite (H x (or_introl eq_refl)). f_equal. apply IH. intros y Hy. apply H. now right.
Qed.

(** With no thread due, to sleep is to move the clock. *)
Lemma sleep_undisturbed (d : Z) (s : Lockbox) :
  (forall w, In w (timers s) -> (clock s + d < w)%Z) ->
  sleep d s = (Val tt, set_clock_timers (clock s + d) (timers s) s).
Proof.
  intro H. unfold sleep.
  rewrite (filter_none (due (clock s + d))), (filter_all (fun w => negb (due (clock s + d) w))).
  - reflexivity.
  - intros w Hw. unfold due. apply H in Hw. apply negb_true_iff, Z.leb_gt. exact Hw.
  - intros w Hw. unfold due. apply H in Hw. apply Z.leb_gt. exact Hw.
Qed.

Lemma sleep_no_timers (d : Z) (s : Lockbox) :
  timers s = [] ->
  sleep d s = (Val tt, set_clock_timers (clock s + d) [] s).
Proof.
  intro H. rewrite sleep_undisturbed; rewrite H; [ reflexivity | intros w []].
Qed.

Lemma sleep_fields (d : Z) (s : Lockbox) :
  let s' := snd (sleep d s) in
  clock s' = (clock s + d)%Z /\
  timers s' = filter (fun w => negb (due (clock s + d) w)) (timers s) /\
  config s' = config s /\
  List.length (led_pins s') = List.length (led_pins s) /\
  expiries s' = expiries s + List.length (filter (due (clock s + d)) (timers s)).
Proof.
  unfold sleep. cbn [snd].
  destruct (woken_fields (filter (due (clock s + d)) (timers s))
              (set_clock_timers (clock s + d)
                 (filter (fun w => negb (due (clock s + d) w)) (timers s)) s))
    as (Hc & Ht & Hg & Hl & He).
  repeat split; assumption.
Qed.

(* ================================================================== *)
(** ** Only a cooldown thread resets the counter or lifts the lockout *)
(* ================================================================== *)

Lemma no_reset_refl (s : Lockbox) : no_reset s s.
Proof. split; [ lia | intros _; split; [ lia | auto ] ]. Qed.

Lemma no_reset_trans (a b c : Lockbox) :
  no_reset a b -> no_reset b c -> no_reset a c.
Proof.
  intros [H1 H2] [H3 H4]. split; [ lia | ]. intro E.
  assert (Eb : expiries b = expiries a) by lia.
  assert (Ec : expiries c = expiries b) by lia.
  destruct (H2 Eb) as [F1 L1]. destruct (H4 Ec) as [F2 L2].
  split; [ lia | auto ].
Qed.

Lemma no_reset_sleep (d : Z) (s : Lockbox) :
  (0 <= d)%Z -> no_reset s (snd (sleep d s)).
Proof.
  intros _.
  destruct (sleep_fields d s) as (_ & _ & _ & _ & He).
  split; [ cbv zeta in He; lia | ].
  intro E. cbv zeta in He. rewrite E in He.
  assert (W : filter (due (clock s + d)) (timers s) = []).
  { apply length_zero_iff_nil. lia. }
  unfold sleep. rewrite W. simpl. split; [ lia | auto ].
Qed.

Lemma no_reset_log (e : LogMsg) (s : Lockbox) :
  is_expiry e = false -> no_reset s (logged e s).
Proof.
  intro H. split.
  - rewrite expiries_logged. lia.
  - intros _. simpl. split; [ lia | auto ].
Qed.

Lemma no_reset_write (w : Lockbox -> Lockbox) (s : Lockbox) :
  main_write w -> no_reset s (w s).
Proof.
  intros []; (split; [ unfold expiries; simpl; lia | ]); intros _; simpl;
    (split; [ lia | auto ]).
Qed.

Local Ltac no_reset_facts :=
  first [ exact no_reset_refl | exact no_reset_trans | exact no_reset_sleep
        | exact no_reset_log | exact no_reset_write
        | intro; apply no_reset_write; constructor ].

Lemma reset_no_reset : carries no_reset reset_system.
Proof. apply carries_reset; no_reset_facts. Qed.

Lemma press_no_reset (idx : nat) : carries no_reset (press idx).
Proof. apply carries_press; no_reset_facts. Qed.

Lemma verify_no_reset (pin : string) : carries no_reset (verify_pin pin).
Proof. apply carries_verify; no_reset_facts. Qed.

Lemma main_loop_no_reset (ts : list Turn) : carries no_reset (main_loop ts).
Proof.
  apply carries_main_loop;
    first [ no_reset_facts | exact reset_no_reset | exact press_no_reset
          | exact verify_no_reset ].
Qed.

(* ================================================================== *)
(** ** The configuration is never written *)
(* ================================================================== *)

Lemma list_set_length {A} (l : list A) :
  forall i v, List.length (list_set i v l) = List.length l.
Proof.
  induction l as [|x l IH]; intros [|i] v; simpl; auto.
Qed.

Lemma same_config_refl (s : Lockbox) : same_config s s.
Proof. split; reflexivity. Qed.

Lemma same_config_trans (a b c : Lockbox) :
  same_config a b -> same_config b c -> same_config a c.
Proof. intros [H1 H2] [H3 H4]. split; congruence. Qed.

Lemma same_config_sleep (d : Z) (s : Lockbox) :
  (0 <= d)%Z -> same_config s (snd (sleep d s)).
Proof.
  intros _. destruct (sleep_fields d s) as (_ & _ & Hg & Hl & _).
  split; assumption.
Qed.

Lemma same_config_log (e : LogMsg) (s : Lockbox) :
  is_expiry e = false -> same_config s (logged e s).
Proof. intros _. split; reflexivity. Qed.

Lemma same_config_write (w : Lockbox -> Lockbox) (s : Lockbox) :
  main_write w -> same_config s (w s).
Proof.
  intros []; split; try reflexivity; simpl.
  - apply length_map.
  - apply list_set_length.
Qed.

Local Ltac same_config_facts :=
  first [ exact same_config_refl | exact same_config_trans
        | exact same_config_sleep | exact same_config_log
        | exact same_config_write
        | intro; apply same_config_write; constructor ].

Lemma reset_same_config : carries same_config reset_system.
Proof. apply carries_reset; same_config_facts. Qed.

Lemma press_same_config (idx : nat) : carries same_config (press idx).
Proof. apply carries_press; same_config_facts. Qed.

Lemma verify_same_config (pin : string) : carries same_config (verify_pin pin).
Proof. apply carries_verify; same_config_facts. Qed.

Lemma main_loop_same_config (ts : list Turn) :
  carries same_config (main_loop ts).
Proof.
  apply carries_main_loop;
    first [ same_config_facts | exact reset_same_config
          | exact press_same_config | exact verify_same_config ].
Qed.

(* ================================================================== *)
(** ** No cooldown thread runs to its end before its time *)
(* ================================================================== *)

Section Until.
Variable T : Z.

Lemma asleep_refl (s : Lockbox) : asleep_until T s s.
Proof. split; [ lia | intro H; split; [ exact H | reflexivity ] ]. Qed.

Lemma asleep_trans (a b c : Lockbox) :
  asleep_until T a b -> asleep_until T b c -> asleep_until T a c.
Proof.
  intros [H1 H2] [H3 H4]. split; [ lia | ]. intro P.
  destruct (H2 P) as [Pb Eb]. destruct (H4 Pb) as [Pc Ec].
  split; [ exact Pc | ]. intro Hc.
  rewrite Ec by exact Hc. apply Eb. lia.
Qed.

Lemma asleep_sleep (d : Z) (s : Lockbox) :
  (0 <= d)%Z -> asleep_until T s (snd (sleep d s)).
Proof.
  intro Hd. destruct (sleep_fields d s) as (Hc & Ht & _ & _ & He).
  cbv zeta in *. split; [ lia | ]. intros [P1 P2]. split.
  - split; [ lia | ]. rewrite Ht. apply Forall_forall. intros w Hw.
    apply filter_In in Hw. rewrite Forall_forall in P2. apply P2, Hw.
  - intro Hlt. rewrite He, filter_none; [ simpl; lia | ].
    intros w Hw. rewrite Forall_forall in P2. apply P2 in Hw.
    unfold due. apply Z.leb_gt. lia.
Qed.

Lemma asleep_log (e : LogMsg) (s : Lockbox) :
  is_expiry e = false -> asleep_until T s (logged e s).
Proof.
  intro H. split; [ simpl; lia | ]. intro P. split; [ exact P | ].
  intros _. rewrite expiries_logged, H. lia.
Qed.

Lemma asleep_write (w : Lockbox -> Lockbox) (s : Lockbox) :
  main_write w -> asleep_until T s (w s).
Proof.
  intros []; (split; [ simpl; lia | ]); intros [P1 P2];
    (split; [ split; simpl; auto | reflexivity ]).
  apply Forall_app. split; [ exact P2 | ].
  constructor; [ | constructor ]. unfold lockout_duration in *. lia.
Qed.

Lemma main_loop_asleep (ts : list Turn) :
  carries (asleep_until T) (main_loop ts).
Proof.
  pose proof asleep_refl. pose proof asleep_trans. pose proof asleep_sleep.
  pose proof asleep_log. pose proof asleep_write.
  apply carries_main_loop;
    first [ assumption
          | intro s; apply asleep_write; constructor
          | apply carries_reset; assumption
          | intro; apply carries_press; assumption
          | intro; apply carries_verify; assumption ].
Qed.

End Until.

(* ================================================================== *)
(** ** Waiting with no cooldown thread pending *)
(* ================================================================== *)

Lemma calm_refl (s : Lockbox) : calm s s.
Proof. intro H. repeat split; auto. lia. Qed.

Lemma calm_trans (a b c : Lockbox) : calm a b -> calm b c -> calm a c.
Proof.
  intros H1 H2 Ha. destruct (H1 Ha) as (Tb & G1 & S1 & A1 & D1 & E1 & C1).
  destruct (H2 Tb) as (Tc & G2 & S2 & A2 & D2 & E2 & C2).
  repeat split; try congruence. lia.
Qed.

Lemma calm_sleep (d : Z) (s : Lockbox) : (0 <= d)%Z -> calm s (snd (sleep d s)).
Proof.
  intros Hd Ht. rewrite (sleep_no_timers d s Ht). simpl.
  repeat split; auto. lia.
Qed.

Lemma calm_beep (p : Pattern) (s : Lockbox) : calm s (logged (LogAudioMock p) s).
Proof.
  intro Ht. unfold actuations, admin_entries, expiries. simpl.
  rewrite !count_lines_snoc. simpl. repeat split; auto; lia.
Qed.

Local Ltac calm_facts :=
  first [ exact calm_refl | exact calm_trans | exact calm_sleep
        | exact calm_beep ].

Lemma audio_calm (p : Pattern) : carries calm (audio_feedback p).
Proof. apply carries_audio; calm_facts. Qed.

Lemma wait_calm (polls : nat) : carries calm (wait_release polls).
Proof. apply carries_wait; calm_facts. Qed.

Lemma scan_keypad_calm (cells : Keypad) : carries calm (scan_keypad cells).
Proof. apply carries_scan_keypad; calm_facts. Qed.

(* ================================================================== *)
(** ** The methods, statement by statement, with no cooldown thread pending *)
(* ================================================================== *)

Lemma bind_eq {A B} (m : M A) (k : A -> M B) (s s' : Lockbox) (a : A) :
  m s = (Val a, s') -> bind m k s = k a s'.
Proof. intro H. unfold bind. rewrite H. reflexivity. Qed.

Lemma bind_exc {A B} (m : M A) (k : A -> M B) (s s' : Lockbox) (e : Exn) :
  m s = (Exc e, s') -> bind m k s = (Exc e, s').
Proof. intro H. unfold bind. rewrite H. reflexivity. Qed.

Lemma bind_fst {A B} (m : M A) (k : A -> M B) (s : Lockbox) (a : A) :
  fst (m s) = Val a -> bind m k s = k a (snd (m s)).
Proof. intro H. unfold bind. destruct (m s) as [r s']. simpl in H. subst r. reflexivity. Qed.

(** The fields of the object [s], each under its own name. *)
Ltac open_state s :=
  destruct s as [hw path ph ah step unl lk fa la el leds st con clk tms];
  cbn [hardware_available correct_path correct_pin_hash admin_pin_hash
       current_step unlocked system_locked failed_attempts last_activity
       event_log led_pins status_led console clock timers] in *.

Ltac eval_call t :=
  eval cbv -[Z.add Z.mul Z.sub Z.ltb Z.leb Z.eqb Z.of_nat app count_lines push_log
             map list_set nth_error hash_pin String.eqb String.length append
             Nat.ltb Nat.leb Nat.eqb List.length] in t.

(** The first statement of a method body is run on an object whose
    fields are in view, and the rest of the body goes on from its
    result. *)
Ltac bstep :=
  lazymatch goal with
  | |- context [bind ?m ?k ?S] =>
      lazymatch m with
      | get _ => idtac | modify _ => idtac | log_event _ => idtac
      | ret _ => idtac | raise _ => idtac
      | sleep _ => idtac | audio_feedback _ => idtac
      | reset_system => idtac | initiate_lockout => idtac
      | unlock_mechanism => idtac | admin_mode => idtac
      end;
      let r := eval_call (m S) in
      lazymatch r with
      | (Val ?a, ?S') => change (bind m k S) with (k a S'); cbv beta
      | (Exc ?e, ?S') => rewrite (bind_exc m k S S' e eq_refl)
      end
  end.

Ltac bdone :=
  lazymatch goal with
  | |- ?m ?S = _ => let r := eval_call (m S) in change (m S) with r; reflexivity
  end.

Ltac facts :=
  cbv -[Z.add Z.mul Z.sub Z.ltb Z.leb Z.eqb Z.le Z.lt Z.of_nat app count_lines
        push_log map list_set nth_error hash_pin String.eqb String.length append
        Nat.ltb Nat.leb Nat.eqb List.length Nat.add];
  rewrite ?count_lines_snoc; cbv beta iota;
  repeat split; try reflexivity; try lia.

Lemma press_wrong (s : Lockbox) (idx : nat) (p : Z) :
  timers s = [] ->
  nth_error (correct_path s) (current_step s) = Some p ->
  Z.of_nat idx <> p ->
  exists s', press idx s = (Val tt, s') /\
  failed_attempts s' = S (failed_attempts s) /\
  current_step s' = 0 /\ unlocked s' = false /\
  expiries s' = expiries s /\ actuations s' = actuations s /\
  admin_entries s' = admin_entries s /\
  (if max_attempts <=? S (failed_attempts s)
   then system_locked s' = true /\
        timers s' = [(clock s' + 1000 * lockout_duration)%Z]
   else system_locked s' = system_locked s /\ timers s' = []).
Proof.
  intros Ht Hp Hne. open_state s. subst tms.
  apply Z.eqb_neq in Hne.
  destruct hw; destruct fa as [|[|fa]]; cbn [max_attempts Nat.leb];
    (eexists; split;
     [ unfold press; repeat bstep; rewrite Hp, Hne; unfold wrong_button;
       repeat bstep; cbn [max_attempts Nat.leb]; bdone
     | facts ]).
Qed.

Lemma press_right (s : Lockbox) (idx : nat) :
  timers s = [] ->
  nth_error (correct_path s) (current_step s) = Some (Z.of_nat idx) ->
  idx < List.length (led_pins s) ->
  exists s', press idx s = (Val tt, s') /\
  current_step s' = S (current_step s) /\
  unlocked s' =
    (if List.length (correct_path s) <=? S (current_step s) then true
     else unlocked s) /\
  failed_attempts s' = failed_attempts s /\
  system_locked s' = system_locked s /\ timers s' = [] /\
  led_pins s' = list_set idx true (led_pins s) /\
  expiries s' = expiries s /\ actuations s' = actuations s /\
  admin_entries s' = admin_entries s /\ (clock s <= clock s')%Z.
Proof.
  intros Ht Hp Hl. open_state s. subst tms.
  apply Nat.ltb_lt in Hl.
  destruct (List.length path <=? S step) eqn:Hd; destruct hw;
    (eexists; split;
     [ unfold press; repeat bstep; rewrite Hp, Z.eqb_refl; unfold right_button;
       repeat bstep; rewrite Hl; repeat bstep; rewrite Hd; repeat bstep; bdone
     | facts ]).
Qed.

Lemma press_off_path (s : Lockbox) (idx : nat) :
  timers s = [] ->
  nth_error (correct_path s) (current_step s) = None ->
  exists s', press idx s = (Exc IndexError, s') /\
  session s' = session s /\ timers s' = [] /\ expiries s' = expiries s.
Proof.
  intros Ht Hp. open_state s. subst tms.
  destruct hw;
    (eexists; split;
     [ unfold press; repeat bstep; rewrite Hp; bdone | facts ]).
Qed.

Lemma press_off_board (s : Lockbox) (idx : nat) :
  timers s = [] ->
  nth_error (correct_path s) (current_step s) = Some (Z.of_nat idx) ->
  List.length (led_pins s) <= idx ->
  exists s', press idx s = (Exc IndexError, s') /\
  session s' = session s /\ timers s' = [] /\ expiries s' = expiries s.
Proof.
  intros Ht Hp Hl. open_state s. subst tms.
  apply Nat.ltb_ge in Hl.
  destruct hw;
    (eexists; split;
     [ unfold press; repeat bstep; rewrite Hp, Z.eqb_refl; unfold right_button;
       repeat bstep; rewrite Hl; repeat bstep; reflexivity
     | facts ]).
Qed.

(** *** The PIN check *)

Lemma verify_primary (s : Lockbox) (pin : string) :
  timers s = [] ->
  hash_pin pin = correct_pin_hash s ->
  exists s', verify_pin pin s = (Val true, s') /\
  actuations s' = S (actuations s) /\ admin_entries s' = admin_entries s /\
  failed_attempts s' = failed_attempts s /\
  system_locked s' = system_locked s /\ timers s' = [] /\
  expiries s' = expiries s /\ (clock s <= clock s')%Z.
Proof.
  intros Ht Hh. open_state s. subst tms.
  apply String.eqb_eq in Hh.
  destruct hw;
    (eexists; split;
     [ unfold verify_pin; repeat bstep; rewrite Hh; repeat bstep; bdone
     | facts ]).
Qed.

Lemma verify_admin (s : Lockbox) (pin : string) :
  timers s = [] ->
  hash_pin pin <> correct_pin_hash s ->
  hash_pin pin = admin_pin_hash s ->
  exists s', verify_pin pin s = (Val true, s') /\
  actuations s' = actuations s /\ admin_entries s' = S (admin_entries s) /\
  failed_attempts s' = failed_attempts s /\
  system_locked s' = system_locked s /\ timers s' = [] /\
  expiries s' = expiries s /\ (clock s <= clock s')%Z.
Proof.
  intros Ht Hn Hh. open_state s. subst tms.
  apply String.eqb_neq in Hn. apply String.eqb_eq in Hh.
  destruct hw;
    (eexists; split;
     [ unfold verify_pin; repeat bstep; rewrite Hn; repeat bstep; rewrite Hh;
       repeat bstep; bdone
     | facts ]).
Qed.

Lemma verify_wrong (s : Lockbox) (pin : string) :
  timers s = [] ->
  hash_pin pin <> correct_pin_hash s ->
  hash_pin pin <> admin_pin_hash s ->
  exists s', verify_pin pin s = (Val false, s') /\
  failed_attempts s' = S (failed_attempts s) /\
  current_step s' = current_step s /\ unlocked s' = unlocked s /\
  expiries s' = expiries s /\ actuations s' = actuations s /\
  admin_entries s' = admin_entries s /\
  (if max_attempts <=? S (failed_attempts s)
   then system_locked s' = true /\
        timers s' = [(clock s' + 1000 * lockout_duration)%Z]
   else system_locked s' = system_locked s /\ timers s' = []).
Proof.
  intros Ht Hn Ha. open_state s. subst tms.
  apply String.eqb_neq in Hn. apply String.eqb_neq in Ha.
  destruct hw; destruct fa as [|[|fa]]; cbn [max_attempts Nat.leb];
    (eexists; split;
     [ unfold verify_pin; repeat bstep; rewrite Hn; repeat bstep; rewrite Ha;
       repeat bstep; cbn [max_attempts Nat.leb]; repeat bstep; bdone
     | facts ]).
Qed.

(** *** Waiting for a release, scanning the keypad *)

Lemma wait_release_quiet (polls : nat) :
  forall s, timers s = [] ->
  wait_release polls s
  = (Val tt, set_clock_timers (clock s + 10 * Z.of_nat polls) [] s).
Proof.
  unfold wait_release. induction polls as [|n IH]; intros s Ht.
  - cbn [repeatM]. unfold ret. f_equal. open_state s. subst tms.
    unfold set_clock_timers. cbn. f_equal. lia.
  - cbn [repeatM]. rewrite (bind_eq _ _ _ _ _ (sleep_no_timers 10 s Ht)).
    rewrite IH by reflexivity. f_equal. rewrite Nat2Z.inj_succ.
    open_state s. unfold set_clock_timers.
    cbn [hardware_available correct_path correct_pin_hash admin_pin_hash
         current_step unlocked system_locked failed_attempts last_activity
         event_log led_pins status_led console clock timers].
    f_equal. lia.
Qed.

Lemma audio_yields (p : Pattern) (s : Lockbox) :
  fst (audio_feedback p s) = Val tt.
Proof.
  unfold audio_feedback, bind, get. destruct (hardware_available s); destruct p;
    reflexivity.
Qed.

Lemma wait_yields (polls : nat) : forall s, fst (wait_release polls s) = Val tt.
Proof.
  unfold wait_release. induction polls as [|n IH]; intro s; [ reflexivity | ].
  cbn [repeatM]. rewrite (bind_fst (sleep 10) _ s tt eq_refl). apply IH.
Qed.

Lemma scan_rows_key (cells : Keypad) (col : nat) (rows : list nat) :
  forall s, fst (scan_rows cells col rows s) = Val (first_row cells col rows).
Proof.
  induction rows as [|row rest IH]; intro s; cbn [scan_rows first_row].
  - reflexivity.
  - destruct (cells col row).
    + apply IH.
    + rewrite (bind_fst (sleep 50) _ s tt eq_refl). apply IH.
    + rewrite (bind_fst (sleep 50) _ s tt eq_refl).
      rewrite (bind_fst _ _ _ tt (wait_yields _ _)).
      rewrite (bind_fst _ _ _ tt (audio_yields _ _)). reflexivity.
Qed.

Lemma scan_cols_key (cells : Keypad) (cols : list nat) :
  forall s, fst (scan_cols cells cols s) = Val (first_col cells cols).
Proof.
  induction cols as [|col rest IH]; intro s; cbn [scan_cols first_col].
  - reflexivity.
  - rewrite (bind_fst (sleep 1) _ s tt eq_refl).
    rewrite (bind_fst _ _ _ _ (scan_rows_key _ _ _ _)).
    destruct (first_row cells col (seq 0 (List.length keypad_row_pins))).
    + reflexivity.
    + apply IH.
Qed.

Lemma scan_keypad_key (cells : Keypad) (s : Lockbox) :
  fst (scan_keypad cells s) = Val (scanned_key cells).
Proof. apply scan_cols_key. Qed.

(* ================================================================== *)
(** ** The PIN phase *)
(* ================================================================== *)

Lemma string_length_snoc (s : string) (k : ascii) :
  String.length (s ++ String k EmptyString) = S (String.length s).
Proof. induction s as [|c s IH]; simpl; [ reflexivity | now rewrite IH ]. Qed.

Lemma calm_fields (s s' : Lockbox) :
  calm s s' -> timers s = [] ->
  timers s' = [] /\
  hardware_available s' = hardware_available s /\
  correct_path s' = correct_path s /\
  correct_pin_hash s' = correct_pin_hash s /\
  admin_pin_hash s' = admin_pin_hash s /\
  current_step s' = current_step s /\ unlocked s' = unlocked s /\
  system_locked s' = system_locked s /\
  failed_attempts s' = failed_attempts s /\
  actuations s' = actuations s /\ admin_entries s' = admin_entries s /\
  expiries s' = expiries s.
Proof.
  intros H Ht. destruct (H Ht) as (T & G & S & A & D & E & _).
  unfold config in G. unfold session in S.
  injection G as G1 G2 G3 G4. injection S as S1 S2 S3 S4 _ _ _.
  repeat split; assumption.
Qed.

(** A loop turn that finds the deadline passed. *)
Lemma pin_loop_timeout (s : Lockbox) (scans : list Keypad) (entered : string)
      (start : Z) :
  timers s = [] ->
  (1000 * pin_timeout < clock s - start)%Z ->
  exists s', pin_loop scans entered start s = (Val (Some false), s') /\
  session s' = session s /\ timers s' = [] /\
  expiries s' = expiries s /\ actuations s' = actuations s /\
  admin_entries s' = admin_entries s.
Proof.
  intros Ht Hd. open_state s. subst tms. apply Z.ltb_lt in Hd.
  destruct hw; destruct scans;
    (eexists; split;
     [ cbn [pin_loop]; repeat bstep; rewrite Hd; repeat bstep; bdone
     | facts ]).
Qed.

(** A loop turn, within the deadline, that finds no key pressed. *)
Lemma pin_loop_idle (s : Lockbox) (rest : list Keypad) (entered : string)
      (start : Z) :
  timers s = [] ->
  (clock s - start <= 1000 * pin_timeout)%Z ->
  pin_loop (no_key :: rest) entered start s
  = pin_loop rest entered start
      (set_clock_timers (clock s + 1 + 1 + 1 + 100) [] s).
Proof.
  intros Ht Hd. open_state s. subst tms. apply Z.ltb_ge in Hd.
  cbn [pin_loop]. repeat bstep. rewrite Hd. cbv beta iota.
  lazymatch goal with
  | |- context [bind (scan_keypad no_key) ?k ?S] =>
      let r := eval cbv -[Z.add push_log app] in (scan_keypad no_key S) in
      lazymatch r with
      | (Val ?a, ?S') => change (bind (scan_keypad no_key) k S) with (k a S')
      end
  end.
  cbv beta iota. repeat bstep. reflexivity.
Qed.

(** With no key pressed the phase ends, as a failure, at the first turn
    past the deadline; the failure counter is not touched. *)
Lemma pin_loop_expires (k : nat) :
  forall (s : Lockbox) (rest : list Keypad) (entered : string) (start : Z),
  timers s = [] ->
  (1000 * pin_timeout < clock s - start + 103 * Z.of_nat k)%Z ->
  exists s', pin_loop (repeat no_key k ++ rest) entered start s
             = (Val (Some false), s') /\
  current_step s' = current_step s /\ unlocked s' = unlocked s /\
  failed_attempts s' = failed_attempts s /\
  system_locked s' = system_locked s /\ timers s' = [] /\
  expiries s' = expiries s /\ actuations s' = actuations s.
Proof.
  induction k as [|k IH]; intros s rest entered start Ht Hd.
  - destruct (pin_loop_timeout s (repeat no_key 0 ++ rest) entered start Ht)
      as (s' & E & Hs & T & X & A & _); [ lia | ].
    unfold session in Hs. injection Hs as S1 S2 S3 S4 _ _ _.
    exists s'. repeat split; assumption.
  - destruct (Z.ltb_spec (1000 * pin_timeout) (clock s - start)) as [Hlt|Hge].
    + destruct (pin_loop_timeout s (repeat no_key (S k) ++ rest) entered start Ht Hlt)
        as (s' & E & Hs & T & X & A & _).
      unfold session in Hs. injection Hs as S1 S2 S3 S4 _ _ _.
      exists s'. repeat split; assumption.
    + cbn [repeat app]. rewrite (pin_loop_idle s _ entered start Ht Hge).
      destruct (IH (set_clock_timers (clock s + 1 + 1 + 1 + 100) [] s)
                   rest entered start eq_refl)
        as (s' & E & S1 & S2 & S3 & S4 & T & X & A).
      { cbn [clock set_clock_timers]. lia. }
      exists s'. repeat split; assumption.
Qed.

(** The loop turn at which the fourth digit arrives hands the four digits
    to the check. *)
Lemma pin_loop_fourth (s : Lockbox) (cells : Keypad) (rest : list Keypad)
      (entered : string) (start : Z) (k : ascii) :
  String.length entered = 3 ->
  scanned_key cells = Some k ->
  (clock s - start <= 1000 * pin_timeout)%Z ->
  pin_loop (cells :: rest) entered start s
  = (ok <- verify_pin (entered ++ String k EmptyString) ;; ret (Some ok))%method
      (logged (LogKey k) (snd (scan_keypad cells s))).
Proof.
  intros Hl Hk Hd. apply Z.ltb_ge in Hd.
  cbn [pin_loop].
  rewrite (bind_eq (get clock) _ s s (clock s) eq_refl). rewrite Hd.
  rewrite (bind_fst _ _ s _ (scan_keypad_key cells s)). rewrite Hk.
  rewrite (bind_eq (log_event (LogKey k)) _ _ _ tt eq_refl).
  rewrite string_length_snoc, Hl. reflexivity.
Qed.

Lemma key_logged_calm (s : Lockbox) (cells : Keypad) (k : ascii) :
  calm s (logged (LogKey k) (snd (scan_keypad cells s))).
Proof.
  apply calm_trans with (snd (scan_keypad cells s)); [ apply scan_keypad_calm | ].
  intro Ht. unfold actuations, admin_entries, expiries. simpl.
  rewrite !count_lines_snoc. simpl. repeat split; auto; lia.
Qed.

(* ================================================================== *)
(** ** The lockout flag follows the failure counter *)
(* ================================================================== *)

Lemma turns_no_reset (ts : list Turn) : carries no_reset (turns ts).
Proof.
  apply carries_turns;
    first [ exact no_reset_refl | exact no_reset_trans | exact no_reset_sleep
          | exact no_reset_log | exact reset_no_reset | exact press_no_reset
          | exact verify_no_reset
          | intro; apply no_reset_write; constructor ].
Qed.

Lemma turns_asleep (T : Z) (ts : list Turn) : carries (asleep_until T) (turns ts).
Proof.
  pose proof (asleep_refl T). pose proof (asleep_trans T).
  pose proof (asleep_sleep T). pose proof (asleep_log T).
  pose proof (asleep_write T).
  apply carries_turns;
    first [ assumption
          | intro s; apply asleep_write; constructor
          | apply carries_reset; assumption
          | intro; apply carries_press; assumption
          | intro; apply carries_verify; assumption ].
Qed.

Lemma third_locks_refl (s : Lockbox) : third_locks s s.
Proof. split; [ apply no_reset_refl | auto ]. Qed.

Lemma third_locks_trans (a b c : Lockbox) :
  third_locks a b -> third_locks b c -> third_locks a c.
Proof.
  intros [N1 T1] [N2 T2]. split; [ eapply no_reset_trans; eassumption | ].
  intros E Ha. destruct N1 as [L1 _], N2 as [L2 _].
  apply T2; [ lia | ]. apply T1; [ lia | exact Ha ].
Qed.

(** A step that leaves the counter, the flag and the pending threads as
    they are. *)
Lemma third_locks_still (s s' : Lockbox) :
  no_reset s s' ->
  failed_attempts s' = failed_attempts s ->
  system_locked s' = system_locked s ->
  (timers s = [] -> timers s' = []) ->
  third_locks s s'.
Proof.
  intros N F L T. split; [ exact N | ]. intros _ [(A & B & C)|(A & B)].
  - left. rewrite F, L. auto.
  - right. rewrite F, L. auto.
Qed.

Lemma third_locks_sleep (d : Z) (s : Lockbox) :
  (0 <= d)%Z -> third_locks s (snd (sleep d s)).
Proof.
  intro Hd. split; [ apply no_reset_sleep, Hd | ].
  intros E [(A & B & C)|(A & B)].
  - left. rewrite (sleep_no_timers d s C). simpl. auto.
  - right. destruct (no_reset_sleep d s Hd) as [_ N]. destruct (N E) as [F L].
    split; [ lia | auto ].
Qed.

Lemma third_locks_log (e : LogMsg) (s : Lockbox) :
  is_expiry e = false -> third_locks s (logged e s).
Proof.
  intro H. apply third_locks_still; auto. apply no_reset_log, H.
Qed.

Lemma third_locks_stamp (s : Lockbox) : third_locks s (stamp_activity s).
Proof.
  apply third_locks_still; auto. apply no_reset_write. constructor.
Qed.

Lemma third_locks_reset : carries third_locks reset_system.
Proof.
  intro s. apply third_locks_still; auto. apply reset_no_reset.
Qed.

(** When the counter is already at the threshold, nothing short of a
    cooldown thread undoes the lockout. *)
Lemma third_locks_locked (s s' : Lockbox) :
  no_reset s s' ->
  (timers s = [] -> failed_attempts s < max_attempts ->
   system_locked s = false -> expiries s' = expiries s -> tally s') ->
  third_locks s s'.
Proof.
  intros N H. split; [ exact N | ]. intros E [(A & B & C)|(A & B)].
  - apply H; assumption.
  - right. destruct N as [_ N]. destruct (N E) as [F L]. split; [ lia | auto ].
Qed.

Lemma third_locks_press (idx : nat) : carries third_locks (press idx).
Proof.
  intro s. apply third_locks_locked; [ apply press_no_reset | ].
  intros Ht Hf Hl _. unfold tally.
  destruct (nth_error (correct_path s) (current_step s)) as [p|] eqn:Hp.
  - destruct (Z.eq_dec (Z.of_nat idx) p) as [He|Hne]; [ subst p | ].
    + destruct (le_lt_dec (List.length (led_pins s)) idx) as [Hb|Hb].
      * destruct (press_off_board s idx Ht Hp Hb) as (s' & E & Hs & Ht' & _).
        rewrite E. simpl. unfold session in Hs. injection Hs as _ _ L F _ _ _.
        left. rewrite F, L. auto.
      * destruct (press_right s idx Ht Hp Hb)
          as (s' & E & _ & _ & F & L & Ht' & _).
        rewrite E. simpl. left. rewrite F, L. auto.
    + destruct (press_wrong s idx p Ht Hp Hne)
        as (s' & E & F & _ & _ & _ & _ & _ & C).
      rewrite E. simpl. rewrite F.
      destruct (max_attempts <=? S (failed_attempts s)) eqn:Hm.
      * right. apply Nat.leb_le in Hm. destruct C. auto.
      * left. apply Nat.leb_gt in Hm. destruct C as [L T]. rewrite L. auto.
  - destruct (press_off_path s idx Ht Hp) as (s' & E & Hs & Ht' & _).
    rewrite E. simpl. unfold session in Hs. injection Hs as _ _ L F _ _ _.
    left. rewrite F, L. auto.
Qed.

Lemma third_locks_verify (pin : string) : carries third_locks (verify_pin pin).
Proof.
  intro s. apply third_locks_locked; [ apply verify_no_reset | ].
  intros Ht Hf Hl _. unfold tally.
  destruct (string_dec (hash_pin pin) (correct_pin_hash s)) as [Hp|Hp].
  - destruct (verify_primary s pin Ht Hp) as (s' & E & _ & _ & F & L & Ht' & _).
    rewrite E. simpl. left. rewrite F, L. auto.
  - destruct (string_dec (hash_pin pin) (admin_pin_hash s)) as [Ha|Ha].
    + destruct (verify_admin s pin Ht Hp Ha) as (s' & E & _ & _ & F & L & Ht' & _).
      rewrite E. simpl. left. rewrite F, L. auto.
    + destruct (verify_wrong s pin Ht Hp Ha)
        as (s' & E & F & _ & _ & _ & _ & _ & C).
      rewrite E. simpl. rewrite F.
      destruct (max_attempts <=? S (failed_attempts s)) eqn:Hm.
      * right. apply Nat.leb_le in Hm. destruct C. auto.
      * left. apply Nat.leb_gt in Hm. destruct C as [L T]. rewrite L. auto.
Qed.

Lemma turns_third_locks (ts : list Turn) : carries third_locks (turns ts).
Proof.
  apply carries_turns;
    first [ exact third_locks_refl | exact third_locks_trans
          | exact third_locks_sleep | exact third_locks_log
          | exact third_locks_stamp | exact third_locks_reset
          | exact third_locks_press | exact third_locks_verify ].
Qed.

(* ================================================================== *)
(** ** The reset operation *)
(* ================================================================== *)

Lemma map_const_idem {A} (v : A) (l : list A) :
  map (fun _ => v) (map (fun _ => v) l) = map (fun _ => v) l.
Proof. rewrite map_map. reflexivity. Qed.

Lemma map_const_all {A} (v : A) (l : list A) :
  Forall (fun x => x = v) (map (fun _ => v) l).
Proof. induction l; simpl; constructor; auto. Qed.

(** C10.  [reset_system] never raises.  Calling it twice leaves the
    object as calling it once does, the log apart, which gains the line
    "System reset completed" at each call: [current_step] is 0,
    [unlocked] is false, every position LED and the status LED are off.
    It writes no other field: [failed_attempts], [system_locked], the tree
    path, the two PIN hashes, the hardware flag, [last_activity], the
    clock and the pending cooldown threads are as before. *)
Theorem reset_system_idempotent_frame (s : Lockbox) :
  let s1 := snd (reset_system s) in
  let s2 := snd (reset_system s1) in
  fst (reset_system s) = Val tt /\
  silent s2 = silent s1 /\
  console s1 = console s ++ [LogReset] /\
  console s2 = console s1 ++ [LogReset] /\
  current_step s1 = 0 /\ unlocked s1 = false /\
  Forall (fun led => led = false) (led_pins s1) /\
  List.length (led_pins s1) = List.length (led_pins s) /\
  status_led s1 = false /\
  failed_attempts s1 = failed_attempts s /\
  system_locked s1 = system_locked s /\
  correct_path s1 = correct_path s /\
  correct_pin_hash s1 = correct_pin_hash s /\
  admin_pin_hash s1 = admin_pin_hash s /\
  hardware_available s1 = hardware_available s /\
  last_activity s1 = last_activity s /\
  clock s1 = clock s /\ timers s1 = timers s.
Proof.
  destruct s as [hw path ph ah step unl lk fa la el leds st con clk tms].
  cbn. unfold silent, set_logs. cbn. rewrite map_const_idem, length_map.
  repeat split; try reflexivity. apply map_const_all.
Qed.

(* ================================================================== *)
(** ** A wrong button *)
(* ================================================================== *)



(* ================================================================== *)
(** ** The four digits *)
(* ================================================================== *)



(* ================================================================== *)
(** ** The PIN entry timeout *)
(* ================================================================== *)



(** The same, for the whole phase: it is entered and no key is ever
    pressed. *)
Lemma handle_pin_entry_unattended (s : Lockbox) (rest : list Keypad) :
  timers s = [] ->
  exists s', handle_pin_entry (repeat no_key 292 ++ rest) s
             = (Val (Some false), s') /\
  failed_attempts s' = failed_attempts s /\
  system_locked s' = system_locked s.
Proof.
  intro Ht. unfold handle_pin_entry.
  rewrite (bind_eq (get clock) _ s s (clock s) eq_refl).
  rewrite (bind_eq (log_event LogPinPhase) _ s _ tt eq_refl).
  destruct (pin_loop_expires 292 (logged LogPinPhase s) rest EmptyString (clock s))
    as (s' & E & _ & _ & F & L & _).
  - exact Ht.
  - cbn [clock logged set_logs]. unfold pin_timeout. lia.
  - exists s'. repeat split; assumption.
Qed.

(* ================================================================== *)
(** ** The failure counter *)
(* ================================================================== *)

Lemma failure_step (s : Lockbox) (f : Failure) :
  timers s = [] -> fails f s ->
  exists s', failure f s = (Val tt, s') /\
  failed_attempts s' = S (failed_attempts s) /\
  expiries s' = expiries s /\
  (if max_attempts <=? S (failed_attempts s)
   then system_locked s' = true /\
        timers s' = [(clock s' + 1000 * lockout_duration)%Z]
   else system_locked s' = system_locked s /\ timers s' = []).
Proof.
  intros Ht Hf. destruct f as [idx|pin]; cbn [fails failure] in *.
  - destruct Hf as (p & Hp & Hne).
    destruct (press_wrong s idx p Ht Hp Hne) as (s' & E & F & _ & _ & X & _ & _ & C).
    exists s'. auto.
  - destruct Hf as [Hp Ha].
    destruct (verify_wrong s pin Ht Hp Ha) as (s' & E & F & _ & _ & X & _ & _ & C).
    exists s'. rewrite (bind_eq _ _ _ _ _ E). auto.
Qed.



(* ================================================================== *)
(** ** Three failures and the cooldown *)
(* ================================================================== *)

(** The lockout when no earlier cooldown is left over.  Start with
    [failed_attempts] at 0, not locked, and no cooldown thread of an
    earlier lockout still pending.
    Three failures in a row, each a wrong button or a wrong four-digit
    PIN, leave [system_locked] true with [failed_attempts] at 3.  From
    there, whatever the main loop is given: [system_locked] is true as
    long as the clock is less than 300 s past the lockout, and it is false
    only once a cooldown thread has run to its end. *)
Theorem three_failures_lock (s : Lockbox) (f1 f2 f3 : Failure) :
  failed_attempts s = 0 -> system_locked s = false -> timers s = [] ->
  let s1 := snd (failure f1 s) in
  let s2 := snd (failure f2 s1) in
  let s3 := snd (failure f3 s2) in
  fails f1 s -> fails f2 s1 -> fails f3 s2 ->
  system_locked s3 = true /\ failed_attempts s3 = 3 /\
  forall ts,
    let s' := snd (turns ts s3) in
    ((clock s' < clock s3 + 1000 * lockout_duration)%Z ->
     system_locked s' = true) /\
    (system_locked s' = false -> expiries s3 < expiries s').
Proof.
  intros Hf Hl Ht s1 s2 s3 F1 F2 F3. subst s1 s2 s3.
  destruct (failure_step s f1 Ht F1) as (s1 & E1 & C1 & _ & K1).
  rewrite E1 in *. cbn [snd] in *. rewrite Hf in *. cbn in K1.
  destruct K1 as [L1 T1].
  destruct (failure_step s1 f2 T1 F2) as (s2 & E2 & C2 & _ & K2).
  rewrite E2 in *. cbn [snd] in *. rewrite C1 in *. cbn in K2.
  destruct K2 as [L2 T2].
  destruct (failure_step s2 f3 T2 F3) as (s3 & E3 & C3 & _ & K3).
  rewrite E3 in *. cbn [snd] in *. rewrite C2 in *. cbn [max_attempts Nat.leb] in K3.
  destruct K3 as [L3 T3].
  split; [ exact L3 | ]. split; [ exact C3 | ].
  intros ts. cbv zeta.
  destruct (turns_no_reset ts s3) as [Hle Hno].
  destruct (turns_asleep (clock s3 + 1000 * lockout_duration) ts s3) as [_ Hu].
  assert (P : pending_from (clock s3 + 1000 * lockout_duration) s3).
  { split; [ lia | ]. rewrite T3. constructor; [ lia | constructor ]. }
  destruct (Hu P) as [_ Hx]. split.
  - intro Hc. apply Hno; [ apply Hx, Hc | exact L3 ].
  - intro Hfalse.
    destruct (Nat.eq_dec (expiries (snd (turns ts s3))) (expiries s3)) as [E|E].
    + destruct (Hno E) as [_ Hk]. rewrite (Hk L3) in Hfalse. discriminate.
    + lia.
Qed.

Lemma three_failures_lock_witness :
  let s := default_boot true in
  let s3 := snd (failure (WrongButton 2)
                   (snd (failure (WrongPin "0000")
                           (snd (failure (WrongButton 1) s))))) in
  system_locked s3 = true /\ failed_attempts s3 = 3.
Proof.
  destruct (three_failures_lock (default_boot true)
              (WrongButton 1) (WrongPin "0000") (WrongButton 2)
              eq_refl eq_refl eq_refl) as (L & F & _).
  - exists 0%Z. split; [ reflexivity | discriminate ].
  - split; intro H;
      assert (E : String.eqb (hash_pin "0000") (hash_pin "1234") = true
                  \/ String.eqb (hash_pin "0000") (hash_pin "9999") = true)
        by (first [ left; apply String.eqb_eq; exact H
                  | right; apply String.eqb_eq; exact H ]);
      vm_compute in E; destruct E; discriminate.
  - exists 0%Z. split; [ vm_compute; reflexivity | discriminate ].
  - split; assumption.
Defined.

(** Over any run of the main loop from a state in which the flag agrees
    with the counter, and as long as no cooldown thread has run to its
    end, the flag agrees with the counter: the object is locked exactly
    from the third failure on. *)
Theorem lock_follows_counter (ts : list Turn) (s : Lockbox) :
  tally s ->
  expiries (snd (turns ts s)) = expiries s ->
  tally (snd (turns ts s)).
Proof.
  intros Ht E. destruct (turns_third_locks ts s) as [_ H]. apply H; assumption.
Qed.

(* ================================================================== *)
(** ** The tree sequence *)
(* ================================================================== *)

Lemma bind_assoc {A B C} (m : M A) (f : A -> M B) (g : B -> M C) (s : Lockbox) :
  bind (bind m f) g s = bind m (fun a => bind (f a) g) s.
Proof. unfold bind. destruct (m s) as [[a|e] s']; reflexivity. Qed.

Lemma scan_released (n : nat) :
  forall k s, scan_buttons k (repeat Released n) s = (Val tt, s).
Proof.
  induction n as [|n IH]; intros k s; cbn [repeat scan_buttons]; [ reflexivity | ].
  destruct (31 <=? k); [ reflexivity | ].
  cbn [scan_button]. rewrite (bind_eq (ret tt) _ s s tt eq_refl). apply IH.
Qed.

Lemma scan_skip (n : nat) :
  forall k rest s,
  k + n <= 31 ->
  scan_buttons k (repeat Released n ++ rest) s = scan_buttons (k + n) rest s.
Proof.
  induction n as [|n IH]; intros k rest s Hk; cbn [repeat app scan_buttons].
  - now rewrite Nat.add_0_r.
  - destruct (Nat.leb_spec 31 k); [ lia | ].
    cbn [scan_button]. rewrite (bind_eq (ret tt) _ s s tt eq_refl).
    rewrite IH by lia. f_equal. lia.
Qed.

(** A pass with one button held comes down to that button. *)
Lemma check_single (s s' : Lockbox) (idx h n : nat) :
  idx < 31 ->
  system_locked s = false ->
  scan_button idx (Held h) s = (Val tt, s') ->
  check_tree_buttons (repeat Released idx ++ Held h :: repeat Released n) s
  = (Val tt, s').
Proof.
  intros Hi Hl E. unfold check_tree_buttons.
  rewrite (bind_eq (get system_locked) _ s s _ eq_refl), Hl.
  rewrite scan_skip by lia. cbn [scan_buttons Nat.add].
  destruct (Nat.leb_spec 31 idx); [ lia | ].
  rewrite (bind_eq _ _ _ _ _ E). apply scan_released.
Qed.

(** The button the path expects, held for [h] reads. *)
Lemma scan_button_right (s : Lockbox) (idx h : nat) :
  timers s = [] ->
  nth_error (correct_path s) (current_step s) = Some (Z.of_nat idx) ->
  idx < List.length (led_pins s) ->
  exists s', scan_button idx (Held h) s = (Val tt, s') /\
  correct_path s' = correct_path s /\
  current_step s' = S (current_step s) /\
  unlocked s' =
    (if List.length (correct_path s) <=? S (current_step s) then true
     else unlocked s) /\
  system_locked s' = system_locked s /\
  failed_attempts s' = failed_attempts s /\
  timers s' = [] /\
  List.length (led_pins s') = List.length (led_pins s).
Proof.
  intros Ht Hp Hl. unfold scan_button.
  rewrite (bind_eq _ _ _ _ _ (sleep_no_timers 50 s Ht)).
  set (s1 := set_clock_timers (clock s + 50) [] s).
  destruct (press_right s1 idx eq_refl Hp Hl)
    as (s2 & E & C & U & F & L & T & D & _).
  destruct (press_same_config idx s1) as [G N]. rewrite E in G, N.
  cbn [snd] in G, N. unfold config in G. injection G as _ G _ _.
  rewrite (bind_eq _ _ _ _ _ E).
  rewrite (bind_eq _ _ _ _ _ (wait_release_quiet h s2 T)).
  eexists. split; [ reflexivity | ].
  cbn [stamp_activity set_last_activity set_clock_timers correct_path
       current_step unlocked system_locked failed_attempts timers led_pins].
  repeat split; assumption.
Qed.

(** A turn of the main loop whose pass advances the sequence without
    completing it. *)
Lemma turn_advances (s : Lockbox) (idx n : nat) (hold : nat -> nat)
      (kp : list Keypad) (rest : list Turn) :
  timers s = [] -> system_locked s = false -> unlocked s = false ->
  nth_error (correct_path s) (current_step s) = Some (Z.of_nat idx) ->
  idx < 31 -> List.length (led_pins s) = 31 ->
  S (current_step s) < List.length (correct_path s) ->
  exists s',
    turns (mkTurn (repeat Released idx ++ Held (hold idx) :: repeat Released n) kp
             :: rest) s
    = turns rest s' /\
    correct_path s' = correct_path s /\
    current_step s' = S (current_step s) /\
    unlocked s' = false /\ system_locked s' = false /\ timers s' = [] /\
    List.length (led_pins s') = 31.
Proof.
  intros Ht Hl Hu Hp Hi Hn Hs.
  destruct (scan_button_right s idx (hold idx) Ht Hp)
    as (s1 & E & P & C & U & L & _ & T & N); [ lia | ].
  destruct (Nat.leb_spec (List.length (correct_path s)) (S (current_step s)));
    [ lia | ].
  cbn [turns]. unfold turn at 1. rewrite bind_assoc.
  rewrite (bind_eq (get system_locked) _ s s _ eq_refl), Hl. cbn [negb].
  rewrite bind_assoc. cbn [buttons].
  rewrite (bind_eq _ _ _ _ _ (check_single s s1 idx _ n Hi Hl E)).
  rewrite bind_assoc.
  rewrite (bind_eq (get unlocked) _ s1 s1 _ eq_refl), U, Hu.
  rewrite (bind_eq (ret true) _ s1 s1 true eq_refl).
  rewrite (bind_eq _ _ _ _ _ (sleep_no_timers 100 s1 T)).
  eexists. split; [ reflexivity | ].
  cbn [set_clock_timers correct_path current_step unlocked system_locked
       timers led_pins].
  repeat split; congruence.
Qed.



(* ================================================================== *)
(** ** Recorded runs of the program *)
(* ================================================================== *)


(** C2 fails on the code.  Buttons 0, 1, 3, 7 one turn each, then 15 and
    16 down during the same pass: the press of 15 completes the sequence,
    the press of 16 reads [correct_path[5]], and the [IndexError] ends
    [main_loop]. *)
Theorem second_press_after_completion :
  let run := main_loop two_at_the_end (default_boot true) in
  fst run = Val Exited /\
  current_step (snd run) = List.length (correct_path (snd run)) /\
  unlocked (snd run) = true /\
  skipn 10 (console (snd run))
  = [ LogButton 15 4; LogCorrect 15 5; LogSequenceDone; LogButton 16 5;
      LogSystemError IndexError; LogCleanup; LogShutdown ].
Proof. vm_compute. repeat split. Qed.

(** A pass or a turn that starts while the object is locked reads no
    input and leaves the object as it is, the sleep of the main loop
    apart. *)
Lemma locked_pass_is_skipped (s : Lockbox) (button_pins : list Line) :
  system_locked s = true ->
  check_tree_buttons button_pins s = (Val tt, s).
Proof.
  intro H. unfold check_tree_buttons.
  rewrite (bind_eq (get system_locked) _ s s _ eq_refl), H. reflexivity.
Qed.

Lemma locked_turn_is_skipped (s : Lockbox) (t : Turn) :
  system_locked s = true -> turn t s = (Val true, s).
Proof.
  intro H. unfold turn.
  rewrite (bind_eq (get system_locked) _ s s _ eq_refl), H. reflexivity.
Qed.

(** C4 fails on the code.  Buttons 1, 2, 3 and 4 down during one pass,
    from the start: the third press locks the object, and the same pass
    goes on to read and handle button 4 while [system_locked] is true,
    which takes [failed_attempts] to 4 and triggers the lockout again. *)
Theorem pass_goes_on_after_lockout :
  let s' := snd (check_tree_buttons four_wrong (default_boot true)) in
  system_locked s' = true /\
  failed_attempts s' = 4 /\
  skipn 7 (console s')
  = [ LogButton 3 0; LogIncorrect 3 0; LogReset; LogLockout 3;
      LogTimerStarted 300;
      LogButton 4 0; LogIncorrect 4 0; LogReset; LogLockout 4;
      LogTimerStarted 300 ].
Proof. vm_compute. repeat split. Qed.

(** C3 fails on the code when a cooldown thread of an earlier lockout is
    still pending.  The run: buttons 1, 2, 3 and 4 down during one pass,
    button 3 held ten seconds, which starts two cooldown threads 15.75 s
    apart; 2842 idle turns, after which the first thread has ended and
    the object is at [failed_attempts] 0, not locked; three wrong buttons,
    which lock it; 100 idle turns, 10 s, after which the second thread
    has ended and the object is not locked any more. *)
Lemma stale_cooldown_lifts_lockout :
  let s := snd (turns (mkTurn four_wrong_slow [] :: repeat idle 2842)
                  (default_boot true)) in
  let s3 := snd (failure (WrongButton 3)
                   (snd (failure (WrongButton 2)
                           (snd (failure (WrongButton 1) s))))) in
  let s' := snd (turns (repeat idle 100) s3) in
  (failed_attempts s = 0 /\ system_locked s = false) /\
  (system_locked s3 = true /\ failed_attempts s3 = 3) /\
  (clock s' < clock s3 + 1000 * lockout_duration)%Z /\
  system_locked s' = false.
Proof. vm_compute. repeat split. Qed.

(** C9 fails on the code.  The pass of C4 leaves two cooldown threads
    pending, 5.75 s apart; each later runs to its end and clears
    [system_locked] and [failed_attempts] on its own. *)
Theorem two_cooldown_threads :
  let s1 := snd (check_tree_buttons four_wrong (default_boot true)) in
  let s2 := snd (turns (repeat idle 2900) s1) in
  let s3 := snd (turns (repeat idle 50) s2) in
  let s4 := snd (turns (repeat idle 50) s3) in
  timers s1 = [307650; 313400]%Z /\
  (timers s2 = [307650; 313400]%Z /\ expiries s2 = 0 /\
   system_locked s2 = true) /\
  (timers s3 = [313400]%Z /\ expiries s3 = 1 /\ system_locked s3 = false) /\
  (timers s4 = [] /\ expiries s4 = 2).
Proof. vm_compute. repeat split. Qed.

(* ================================================================== *)
(** ** What a run of the main loop leaves alone *)
(* ================================================================== *)

(** No run of the main loop, whatever the buttons and the keypad show,
    changes the tree path, the two PIN hashes, the hardware flag or the
    number of LEDs. *)
Theorem credentials_never_change (ts : list Turn) (s : Lockbox) :
  let s' := snd (main_loop ts s) in
  correct_path s' = correct_path s /\
  correct_pin_hash s' = correct_pin_hash s /\
  admin_pin_hash s' = admin_pin_hash s /\
  hardware_available s' = hardware_available s /\
  List.length (led_pins s') = List.length (led_pins s).
Proof.
  destruct (main_loop_same_config ts s) as [C L].
  unfold config in C. injection C as H1 H2 H3 H4. cbv zeta. auto.
Qed.

Lemma lock_follows_counter_witness :
  tally (snd (turns [tap 2 3] (default_boot true))).
Proof.
  apply lock_follows_counter.
  - left. repeat split. cbv. lia.
  - vm_compute. reflexivity.
Defined.

(* ================================================================== *)
(** ** Runs without a confirmed press *)
(* ================================================================== *)

Lemma later_0 (s : Lockbox) : later 0 s = s.
Proof. destruct s. unfold later. cbn. rewrite Z.add_0_r. reflexivity. Qed.

Lemma later_later (a b : Z) (s : Lockbox) :
  later b (later a s) = later (a + b) s.
Proof. destruct s. unfold later. cbn. rewrite Z.add_assoc. reflexivity. Qed.

Lemma sleep_later (d : Z) (s : Lockbox) :
  (forall w, In w (timers s) -> (clock s + d < w)%Z) ->
  sleep d s = (Val tt, later d s).
Proof. exact (sleep_undisturbed d s). Qed.

Lemma bind_ext {A B} (m : M A) (k k' : A -> M B) (s : Lockbox) :
  (forall a s', k a s' = k' a s') -> bind m k s = bind m k' s.
Proof.
  intro H. unfold bind. destruct (m s) as [[a|e] s']; [ apply H | reflexivity ].
Qed.

Lemma bounce_time_nonneg (button_pins : list Line) :
  forall idx, (0 <= bounce_time idx button_pins)%Z.
Proof.
  induction button_pins as [|b rest IH]; intro idx; cbn [bounce_time]; [ lia | ].
  destruct (31 <=? idx); [ lia | ]. specialize (IH (S idx)). destruct b; lia.
Qed.

Lemma unpressed_time_nonneg (ts : list Turn) : (0 <= unpressed_time ts)%Z.
Proof.
  induction ts as [|t rest IH]; cbn [unpressed_time]; [ lia | ].
  pose proof (bounce_time_nonneg (buttons t) 0). lia.
Qed.

(** A scan pass over lines that show no confirmed press only takes
    time. *)
Lemma scan_unpressed (button_pins : list Line) :
  forall idx s,
  forallb unpressed button_pins = true ->
  (forall w, In w (timers s) -> (clock s + bounce_time idx button_pins < w)%Z) ->
  scan_buttons idx button_pins s
  = (Val tt, later (bounce_time idx button_pins) s).
Proof.
  induction button_pins as [|b rest IH]; intros idx s Hu Hw;
    cbn [scan_buttons bounce_time] in *.
  - rewrite later_0. reflexivity.
  - destruct (31 <=? idx).
    + rewrite later_0. reflexivity.
    + cbn [forallb] in Hu. apply andb_true_iff in Hu. destruct Hu as [Hb Hr].
      pose proof (bounce_time_nonneg rest (S idx)) as P.
      destruct b as [| |polls]; [ | | discriminate ]; cbn [scan_button].
      * rewrite (bind_eq _ _ s s tt eq_refl). rewrite IH; [ reflexivity | exact Hr | ].
        intros w Hin. apply Hw in Hin. lia.
      * assert (E : sleep 50 s = (Val tt, later 50 s)).
        { apply sleep_later. intros w Hin. apply Hw in Hin. lia. }
        rewrite (bind_eq _ _ _ _ _ E).
        rewrite IH; [ rewrite later_later; reflexivity | exact Hr | ].
        intros w Hin. change (timers (later 50 s)) with (timers s) in Hin.
        change (clock (later 50 s)) with (clock s + 50)%Z.
        apply Hw in Hin. lia.
Qed.

(** Turns without a confirmed press, from an object that is not locked
    and whose sequence is not complete. *)
Lemma unpressed_turns (ts : list Turn) :
  forall s,
  system_locked s = false -> unlocked s = false ->
  Forall (fun t => forallb unpressed (buttons t) = true) ts ->
  (forall w, In w (timers s) -> (clock s + unpressed_time ts < w)%Z) ->
  turns ts s = (Val Polling, later (unpressed_time ts) s).
Proof.
  induction ts as [|t rest IH]; intros s Hl Hu Hf Hw; cbn [turns unpressed_time] in *.
  - rewrite later_0. reflexivity.
  - inversion Hf as [|t' rest' Ht Hrest]; subst.
    pose proof (bounce_time_nonneg (buttons t) 0) as P.
    pose proof (unpressed_time_nonneg rest) as Q.
    set (b := bounce_time 0 (buttons t)) in *.
    assert (E : turn t s = (Val true, later b s)).
    { unfold turn. rewrite (bind_eq (get system_locked) _ s s _ eq_refl), Hl.
      cbn [negb]. unfold check_tree_buttons.
      rewrite bind_assoc, (bind_eq (get system_locked) _ s s _ eq_refl), Hl.
      assert (E : scan_buttons 0 (buttons t) s = (Val tt, later b s)).
      { apply scan_unpressed; [ exact Ht | ].
        intros w Hin. apply Hw in Hin. subst b. lia. }
      rewrite (bind_eq _ _ _ _ _ E).
      rewrite (bind_eq (get unlocked) _ (later b s) (later b s) _ eq_refl).
      change (unlocked (later b s)) with (unlocked s). rewrite Hu. reflexivity. }
    rewrite (bind_eq _ _ _ _ _ E).
    assert (E' : sleep 100 (later b s) = (Val tt, later 100 (later b s))).
    { apply sleep_later. intros w Hin.
      change (timers (later b s)) with (timers s) in Hin.
      change (clock (later b s)) with (clock s + b)%Z.
      apply Hw in Hin. lia. }
    rewrite (bind_eq _ _ _ _ _ E').
    rewrite IH.
    + rewrite !later_later. do 2 f_equal. lia.
    + exact Hl.
    + exact Hu.
    + exact Hrest.
    + intros w Hin. rewrite later_later in *.
      change (timers (later (b + 100) s)) with (timers s) in Hin.
      change (clock (later (b + 100) s)) with (clock s + (b + 100))%Z.
      apply Hw in Hin. lia.
Qed.

(** Glitches and the keypad alone.  From an object that is not locked
    and whose sequence is not complete, a run during which no button
    shows a confirmed press changes nothing but the clock, whatever the
    keypad shows: no line is logged, the keypad is not scanned, and the
    session fields stay.  The pending cooldown threads are taken to wake
    after the run. *)
Theorem unpressed_run_is_inert (ts : list Turn) :
  forall s,
  system_locked s = false -> unlocked s = false ->
  Forall (fun t => forallb unpressed (buttons t) = true) ts ->
  (forall w, In w (timers s) -> (clock s + unpressed_time ts < w)%Z) ->
  turns ts s = (Val Polling, later (unpressed_time ts) s).
Proof. exact (unpressed_turns ts). Qed.



Lemma unpressed_run_is_inert_witness :
  turns [mkTurn (pass [] (fun _ => 0)) keys_1234; mkTurn [Bounce; Released] []]
        (default_boot true)
  = (Val Polling, later 250 (default_boot true)).
Proof.
  assert (E : unpressed_time
           [mkTurn (pass [] (fun _ => 0)) keys_1234; mkTurn [Bounce; Released] []]
           = 250%Z) by (vm_compute; reflexivity).
  rewrite <- E.
  apply unpressed_run_is_inert.
  - reflexivity.
  - reflexivity.
  - constructor; [ vm_compute; reflexivity | ].
    constructor; [ vm_compute; reflexivity | constructor ].
  - intros w [].
Defined.

(** During a lockout.  As long as no cooldown thread wakes, a run of the
    main loop from a locked object changes nothing but the clock, whatever
    the buttons and the keypad show: they are not read. *)
Theorem locked_run_is_inert (ts : list Turn) :
  forall s,
  system_locked s = true ->
  (forall w, In w (timers s) ->
             (clock s + 100 * Z.of_nat (List.length ts) < w)%Z) ->
  turns ts s = (Val Polling, later (100 * Z.of_nat (List.length ts)) s).
Proof.
  induction ts as [|t rest IH]; intros s Hl Hw.
  - cbn [turns List.length Z.of_nat]. rewrite Z.mul_0_r, later_0. reflexivity.
  - cbn [turns]. rewrite (bind_eq _ _ _ _ _ (locked_turn_is_skipped s t Hl)).
    cbn [List.length] in *.
    assert (E : sleep 100 s = (Val tt, later 100 s)).
    { apply sleep_later. intros w Hin. apply Hw in Hin. lia. }
    rewrite (bind_eq _ _ _ _ _ E).
    rewrite IH.
    + rewrite later_later. do 2 f_equal. lia.
    + exact Hl.
    + intros w Hin.
      change (timers (later 100 s)) with (timers s) in Hin.
      change (clock (later 100 s)) with (clock s + 100)%Z.
      apply Hw in Hin. lia.
Qed.

Lemma locked_run_is_inert_witness :
  let s := snd (check_tree_buttons (pass [1; 2; 3] (fun _ => 0))
                  (default_boot true)) in
  turns [tap 0 3; mkTurn (pass [4; 5] (fun _ => 9)) keys_1234] s
  = (Val Polling, later 200 s).
Proof.
  intro s.
  set (ts := [tap 0 3; mkTurn (pass [4; 5] (fun _ => 9)) keys_1234]).
  assert (E : (100 * Z.of_nat (List.length ts))%Z = 200%Z) by reflexivity.
  assert (L : system_locked s = true) by (vm_compute; reflexivity).
  assert (T : timers s = [307650%Z]) by (vm_compute; reflexivity).
  assert (C : clock s = 7650%Z) by (vm_compute; reflexivity).
  rewrite <- E.
  apply (locked_run_is_inert ts s L).
  intros w H. rewrite T in H. rewrite C, E. destruct H as [H|[]]. subst w.
  reflexivity.
Defined.

(* ================================================================== *)
(** ** The end of a lockout *)
(* ================================================================== *)

Lemma idle_unpressed (n : nat) :
  Forall (fun t => forallb unpressed (buttons t) = true) (repeat idle n).
Proof. induction n; cbn [repeat]; constructor; [ reflexivity | assumption ]. Qed.

Lemma idle_time (n : nat) : unpressed_time (repeat idle n) = (100 * Z.of_nat n)%Z.
Proof.
  induction n as [|n IH]; [ reflexivity | ].
  cbn [repeat unpressed_time]. rewrite IH, Nat2Z.inj_succ.
  change (bounce_time 0 (buttons idle)) with 0%Z. lia.
Qed.

(** The sleep during which the only pending cooldown thread wakes. *)
Lemma sleep_wakes (d T : Z) (s : Lockbox) :
  timers s = [T] -> (T <= clock s + d)%Z ->
  sleep d s
  = (Val tt, snd (lockout_timer (set_clock_timers (clock s + d) [] s))).
Proof.
  intros Ht Hd. unfold sleep. rewrite Ht. cbn [filter]. unfold due.
  apply Z.leb_le in Hd. rewrite Hd. cbn [negb wake].
  unfold bind. destruct (lockout_timer _) as [[[]|e] s']; reflexivity.
Qed.

(** A lockout ends.  From a locked object with one cooldown thread
    pending, once the main loop has idled up to the wake-up time of the
    thread the object is not locked, [failed_attempts] is 0, the
    sequence is at step 0 and no thread is pending: one cooldown has
    expired. *)
Theorem lockout_ends (n : nat) :
  forall (s : Lockbox) (T : Z),
  system_locked s = true -> timers s = [T] ->
  (clock s < T)%Z -> (T <= clock s + 100 * Z.of_nat n)%Z ->
  let s' := snd (turns (repeat idle n) s) in
  fst (turns (repeat idle n) s) = Val Polling /\
  system_locked s' = false /\ failed_attempts s' = 0 /\
  current_step s' = 0 /\ unlocked s' = false /\ timers s' = [] /\
  expiries s' = expiries s + 1 /\
  clock s' = (clock s + 100 * Z.of_nat n)%Z.
Proof.
  induction n as [|n IH]; intros s T Hl Ht Hc Hn; [ cbn in Hn; lia | ].
  cbn [repeat turns]. cbv zeta.
  rewrite (bind_eq _ _ _ _ _ (locked_turn_is_skipped s idle Hl)).
  destruct (Z_le_gt_dec T (clock s + 100)) as [Hd|Hd].
  - rewrite (bind_eq _ _ _ _ _ (sleep_wakes 100 T s Ht Hd)).
    set (s0 := set_clock_timers (clock s + 100) [] s).
    destruct (lockout_timer_fields s0)
      as (_ & L1 & F1 & S1 & U1 & C1 & T1 & _ & _ & E1 & _).
    set (s1 := snd (lockout_timer s0)) in *.
    change (timers s0) with (@nil Z) in T1.
    change (clock s0) with (clock s + 100)%Z in C1.
    change (expiries s0) with (expiries s) in E1.
    rewrite (unpressed_turns (repeat idle n) s1 L1 U1 (idle_unpressed n));
      [ | rewrite T1; intros w [] ].
    rewrite idle_time. cbn [fst snd].
    change (system_locked (later (100 * Z.of_nat n) s1)) with (system_locked s1).
    change (failed_attempts (later (100 * Z.of_nat n) s1)) with (failed_attempts s1).
    change (current_step (later (100 * Z.of_nat n) s1)) with (current_step s1).
    change (unlocked (later (100 * Z.of_nat n) s1)) with (unlocked s1).
    change (timers (later (100 * Z.of_nat n) s1)) with (timers s1).
    change (expiries (later (100 * Z.of_nat n) s1)) with (expiries s1).
    change (clock (later (100 * Z.of_nat n) s1)) with (clock s1 + 100 * Z.of_nat n)%Z.
    repeat split; try assumption; lia.
  - assert (E : sleep 100 s = (Val tt, later 100 s)).
    { apply sleep_later. intros w Hin. rewrite Ht in Hin.
      destruct Hin as [<-|[]]. lia. }
    rewrite (bind_eq _ _ _ _ _ E).
    destruct (IH (later 100 s) T Hl Ht) as (R0 & R1 & R2 & R3 & R4 & R5 & R6 & R7).
    + change (clock (later 100 s)) with (clock s + 100)%Z. lia.
    + change (clock (later 100 s)) with (clock s + 100)%Z. lia.
    + change (clock (later 100 s)) with (clock s + 100)%Z in R7.
      change (expiries (later 100 s)) with (expiries s) in R6.
      repeat split; try assumption. lia.
Qed.

Lemma lockout_ends_witness :
  let s := snd (check_tree_buttons (pass [1; 2; 3] (fun _ => 0))
                  (default_boot true)) in
  system_locked (snd (turns (repeat idle 3000) s)) = false /\
  failed_attempts (snd (turns (repeat idle 3000) s)) = 0.
Proof.
  intro s.
  assert (L : system_locked s = true) by (vm_compute; reflexivity).
  assert (T : timers s = [307650%Z]) by (vm_compute; reflexivity).
  assert (C : clock s = 7650%Z) by (vm_compute; reflexivity).
  destruct (lockout_ends 3000 s 307650 L T) as (_ & R1 & R2 & _).
  - rewrite C. reflexivity.
  - rewrite C. vm_compute. discriminate.
  - split; assumption.
Defined.

(* ================================================================== *)
(** ** The scan pass *)
(* ================================================================== *)

(** A confirmed press of the button the path expects (no cooldown thread
    pending): the sequence advances by one step, the LED of the button
    is lit and the other LEDs stay, the failure counter and the lockout
    flag stay, and [unlocked] is set exactly when the step reached is the
    length of the path. *)
Theorem right_button_advances (s : Lockbox) (idx : nat) :
  timers s = [] ->
  nth_error (correct_path s) (current_step s) = Some (Z.of_nat idx) ->
  idx < List.length (led_pins s) ->
  let s' := snd (press idx s) in
  fst (press idx s) = Val tt /\
  current_step s' = current_step s + 1 /\
  led_pins s' = list_set idx true (led_pins s) /\
  nth_error (led_pins s') idx = Some true /\
  (forall j, j <> idx -> nth_error (led_pins s') j = nth_error (led_pins s) j) /\
  unlocked s' =
    (if List.length (correct_path s) <=? current_step s + 1 then true
     else unlocked s) /\
  failed_attempts s' = failed_attempts s /\
  system_locked s' = system_locked s /\
  timers s' = [].
Proof.
  intros Ht Hp Hl.
  destruct (press_right s idx Ht Hp Hl)
    as (s' & E & S1 & U1 & F1 & L1 & T1 & D1 & _).
  rewrite E. cbn [fst snd]. rewrite Nat.add_1_r.
  assert (G : forall (l : list bool) i, i < List.length l ->
              nth_error (list_set i true l) i = Some true).
  { clear. induction l as [|x l IH]; intros [|i] H; cbn in *; try lia;
      [ reflexivity | apply IH; lia ]. }
  assert (G' : forall (l : list bool) i j, j <> i ->
               nth_error (list_set i true l) j = nth_error l j).
  { clear. induction l as [|x l IH]; intros [|i] [|j] H; cbn; try reflexivity;
      try congruence. apply IH. congruence. }
  rewrite D1. repeat split; auto.
Qed.

Lemma right_button_advances_witness :
  let s := default_boot false in
  current_step (snd (press 0 s)) = 1 /\
  nth_error (led_pins (snd (press 0 s))) 0 = Some true /\
  unlocked (snd (press 0 s)) = false.
Proof.
  destruct (right_button_advances (default_boot false) 0)
    as (_ & S1 & _ & N1 & _ & U1 & _).
  - reflexivity.
  - reflexivity.
  - cbv. lia.
  - repeat split; assumption.
Defined.



(** The scan stops at 31 buttons: lines beyond the 31st are never read,
    whatever they show and whatever the pass does before. *)
Lemma scan_buttons_bound (button_pins extra : list Line) :
  forall idx s,
  idx + List.length button_pins = 31 ->
  scan_buttons idx (button_pins ++ extra) s = scan_buttons idx button_pins s.
Proof.
  induction button_pins as [|b rest IH]; intros idx s H; cbn [List.length] in H.
  - rewrite Nat.add_0_r in H. subst idx. cbn [app].
    destruct extra; reflexivity.
  - cbn [app scan_buttons]. destruct (31 <=? idx); [ reflexivity | ].
    apply bind_ext. intros _ s'. apply IH. lia.
Qed.

Theorem only_31_buttons_read (button_pins extra : list Line) (s : Lockbox) :
  List.length button_pins = 31 ->
  check_tree_buttons (button_pins ++ extra) s = check_tree_buttons button_pins s.
Proof.
  intro H. unfold check_tree_buttons. apply bind_ext. intros locked s'.
  destruct locked; [ reflexivity | ]. apply scan_buttons_bound. exact H.
Qed.

Lemma only_31_buttons_read_witness :
  check_tree_buttons (quiet_pass ++ [Held 5; Held 5]) (default_boot true)
  = check_tree_buttons quiet_pass (default_boot true).
Proof. apply only_31_buttons_read. reflexivity. Defined.

(* ================================================================== *)
(** ** The keypad *)
(* ================================================================== *)

Lemma first_row_digit (cells : Keypad) (col : nat) (k : ascii) :
  col < 3 ->
  first_row cells col (seq 0 (List.length keypad_row_pins)) = Some k ->
  In k keypad_digits.
Proof.
  intros Hc. cbn [keypad_row_pins List.length seq first_row].
  destruct col as [|[|[|col]]]; [ | | | lia ];
    match goal with
    | |- context [cells ?c 0] =>
        destruct (cells c 0); destruct (cells c 1); destruct (cells c 2)
    end;
    intro H; try discriminate; injection H as <-; cbv; tauto.
Qed.

Lemma first_row_none (cells : Keypad) (col : nat) :
  first_row cells col (seq 0 (List.length keypad_row_pins)) = None ->
  forall row polls, row < 3 -> cells col row <> Held polls.
Proof.
  cbn [keypad_row_pins List.length seq first_row].
  intros H row polls Hr.
  destruct row as [|[|[|row]]]; [ | | | lia ];
    destruct (cells col 0); destruct (cells col 1); destruct (cells col 2);
    discriminate.
Qed.

Lemma scanned_key_digit (cells : Keypad) (k : ascii) :
  scanned_key cells = Some k -> In k keypad_digits.
Proof.
  unfold scanned_key. cbn [keypad_col_pins List.length seq first_col].
  destruct (first_row cells 0 _) eqn:E0;
    [ intro H; injection H as <-; apply (first_row_digit cells 0); [ lia | exact E0 ] | ].
  destruct (first_row cells 1 _) eqn:E1;
    [ intro H; injection H as <-; apply (first_row_digit cells 1); [ lia | exact E1 ] | ].
  destruct (first_row cells 2 _) eqn:E2;
    [ intro H; injection H as <-; apply (first_row_digit cells 2); [ lia | exact E2 ] | ].
  discriminate.
Qed.

Lemma scanned_key_none (cells : Keypad) :
  scanned_key cells = None ->
  forall col row polls, col < 3 -> row < 3 -> cells col row <> Held polls.
Proof.
  unfold scanned_key. cbn [keypad_col_pins List.length seq first_col].
  destruct (first_row cells 0 _) eqn:E0; [ discriminate | ].
  destruct (first_row cells 1 _) eqn:E1; [ discriminate | ].
  destruct (first_row cells 2 _) eqn:E2; [ discriminate | ].
  intros _ col row polls Hc Hr.
  destruct col as [|[|[|col]]]; [ | | | lia ]; apply first_row_none; assumption.
Qed.

(** What [scan_keypad] answers.  The answer depends on the keypad alone;
    it is one of the nine characters 1 to 9, so no other digit can be
    entered; and it is [None] only when no key is held. *)
Theorem scan_keypad_answers (cells : Keypad) (s : Lockbox) :
  fst (scan_keypad cells s) = Val (scanned_key cells) /\
  (forall k, scanned_key cells = Some k -> In k keypad_digits) /\
  (scanned_key cells = None ->
   forall col row polls, col < 3 -> row < 3 -> cells col row <> Held polls).
Proof.
  split; [ apply scan_keypad_key | ].
  split; [ apply scanned_key_digit | apply scanned_key_none ].
Qed.

Lemma scan_keypad_answers_witness :
  fst (scan_keypad (one_key 2 1 4) (default_boot true)) = Val (Some "8"%char) /\
  In "8"%char keypad_digits.
Proof.
  destruct (scan_keypad_answers (one_key 2 1 4) (default_boot true)) as (A & B & _).
  split; [ rewrite A; reflexivity | apply B; reflexivity ].
Defined.

(* ================================================================== *)
(** ** The main loop and its handler *)
(* ================================================================== *)

(** [Exited] is the answer of the handler alone. *)
Lemma turns_not_exited (ts : list Turn) :
  forall s, fst (turns ts s) <> Val Exited.
Proof.
  induction ts as [|t rest IH]; intro s; cbn [turns].
  - discriminate.
  - unfold bind at 1. destruct (turn t s) as [[[|]|e] s1]; [ | discriminate.. ].
    unfold bind. destruct (sleep 100 s1) as [[[]|e] s2]; [ apply IH | discriminate ].
Qed.

(** [main_loop] lets no exception out.  It first logs that the system
    has started.  If the loop raises, the error is logged, then the two
    lines of [cleanup], nothing else is changed, and [main_loop] has
    returned; it returns in no other way. *)
Theorem main_loop_handles_errors (ts : list Turn) (s : Lockbox) :
  let started := logged LogStarted s in
  match fst (turns ts started) with
  | Exc e =>
      fst (main_loop ts s) = Val Exited /\
      silent (snd (main_loop ts s)) = silent (snd (turns ts started)) /\
      console (snd (main_loop ts s))
      = console (snd (turns ts started))
        ++ [LogSystemError e; LogCleanup; LogShutdown]
  | Val st =>
      main_loop ts s = (Val st, snd (turns ts started)) /\ st <> Exited
  end.
Proof.
  cbv zeta. unfold main_loop.
  rewrite (bind_eq (log_event LogStarted) _ s (logged LogStarted s) tt eq_refl).
  unfold try_except.
  destruct (turns ts (logged LogStarted s)) as [[st|e] s1] eqn:E; cbn [fst snd].
  - split; [ reflexivity | ]. intros ->.
    apply (turns_not_exited ts (logged LogStarted s)). rewrite E. reflexivity.
  - unfold cleanup, bind, log_event, modify, ret. cbn [fst snd].
    repeat split. unfold logged. cbn [console set_logs].
    rewrite <- !app_assoc. reflexivity.
Qed.

(* ================================================================== *)
(** ** The start of a lockout *)
(* ================================================================== *)

(** [initiate_lockout], with no cooldown thread pending.  The flag is set
    at once; the ten flashes take 4 s and the error beeps 0.8 s more on
    the hardware; then the cooldown thread is started, to wake 300 s
    later.  The LEDs are left off, and the counter, the step and
    [unlocked] are not written. *)
Theorem lockout_timing (s : Lockbox) :
  timers s = [] ->
  let s' := snd (initiate_lockout s) in
  fst (initiate_lockout s) = Val tt /\
  system_locked s' = true /\
  clock s' = (clock s + (if hardware_available s then 4800 else 4000))%Z /\
  timers s' = [(clock s' + 1000 * lockout_duration)%Z] /\
  led_pins s' = map (fun _ => false) (led_pins s) /\
  status_led s' = false /\
  failed_attempts s' = failed_attempts s /\
  current_step s' = current_step s /\
  unlocked s' = unlocked s /\
  expiries s' = expiries s.
Proof.
  intro Ht. open_state s. subst tms.
  assert (G : forall l : list bool,
            map (fun _ => false) (map (fun _ => true) l) = map (fun _ => false) l).
  { clear. intro l. rewrite map_map. reflexivity. }
  destruct hw.
  - assert (E : exists s', initiate_lockout
       {| hardware_available := true; correct_path := path;
          correct_pin_hash := ph; admin_pin_hash := ah; current_step := step;
          unlocked := unl; system_locked := lk; failed_attempts := fa;
          last_activity := la; event_log := el; led_pins := leds;
          status_led := st; console := con; clock := clk; timers := [] |}
       = (Val tt, s') /\
       system_locked s' = true /\ clock s' = (clk + 4800)%Z /\
       timers s' = [(clock s' + 1000 * lockout_duration)%Z] /\
       led_pins s' = map (fun _ => false) leds /\ status_led s' = false /\
       failed_attempts s' = fa /\ current_step s' = step /\ unlocked s' = unl /\
       expiries s' = count_lines is_expiry con).
    { eexists. split; [ unfold initiate_lockout; repeat bstep; bdone | ].
      facts; rewrite ?G, ?map_map; reflexivity. }
    destruct E as (s' & E & R). rewrite E. cbn [fst snd]. split; [ reflexivity | exact R ].
  - assert (E : exists s', initiate_lockout
       {| hardware_available := false; correct_path := path;
          correct_pin_hash := ph; admin_pin_hash := ah; current_step := step;
          unlocked := unl; system_locked := lk; failed_attempts := fa;
          last_activity := la; event_log := el; led_pins := leds;
          status_led := st; console := con; clock := clk; timers := [] |}
       = (Val tt, s') /\
       system_locked s' = true /\ clock s' = (clk + 4000)%Z /\
       timers s' = [(clock s' + 1000 * lockout_duration)%Z] /\
       led_pins s' = map (fun _ => false) leds /\ status_led s' = false /\
       failed_attempts s' = fa /\ current_step s' = step /\ unlocked s' = unl /\
       expiries s' = count_lines is_expiry con).
    { eexists. split; [ unfold initiate_lockout; repeat bstep; bdone | ].
      facts; rewrite ?G, ?map_map; reflexivity. }
    destruct E as (s' & E & R). rewrite E. cbn [fst snd]. split; [ reflexivity | exact R ].
Qed.

(* ================================================================== *)
(** ** The event log *)
(* ================================================================== *)

Section Logs.
Variable P : list LogMsg -> list LogMsg -> Prop.
Hypothesis P_push : forall log out e, P log out -> P (push_log log e) (out ++ [e]).

Lemma keeps_refl (s : Lockbox) : keeps P s s.
Proof. intro H. exact H. Qed.

Lemma keeps_trans (a b c : Lockbox) : keeps P a b -> keeps P b c -> keeps P a c.
Proof. unfold keeps. auto. Qed.

Lemma keeps_log (e : LogMsg) (s : Lockbox) : keeps P s (logged e s).
Proof. intro H. apply P_push. exact H. Qed.

Lemma keeps_write (w : Lockbox -> Lockbox) (s : Lockbox) :
  main_write w -> keeps P s (w s).
Proof. intros [] H; exact H. Qed.

Lemma keeps_timer : carries (keeps P) lockout_timer.
Proof. intros s H. cbn. apply P_push, P_push. exact H. Qed.

Lemma keeps_wake (woken : list Z) : carries (keeps P) (wake woken).
Proof.
  induction woken as [|w rest IH]; cbn [wake].
  - apply (carries_ret keeps_refl).
  - apply (carries_bind keeps_trans); [ apply keeps_timer | intros _; exact IH ].
Qed.

Lemma keeps_sleep (d : Z) (s : Lockbox) : (0 <= d)%Z -> keeps P s (snd (sleep d s)).
Proof.
  intros _ H. unfold sleep. cbn [snd]. apply keeps_wake. exact H.
Qed.

Local Ltac keeps_facts :=
  first [ exact keeps_refl | exact keeps_trans | exact keeps_sleep
        | exact (fun e s _ => keeps_log e s) | exact keeps_write
        | intro; apply keeps_write; constructor ].

Lemma keeps_reset : carries (keeps P) reset_system.
Proof. apply carries_reset; keeps_facts. Qed.

Lemma keeps_press (idx : nat) : carries (keeps P) (press idx).
Proof. apply carries_press; keeps_facts. Qed.

Lemma keeps_verify (pin : string) : carries (keeps P) (verify_pin pin).
Proof. apply carries_verify; keeps_facts. Qed.

Lemma keeps_main_loop (ts : list Turn) : carries (keeps P) (main_loop ts).
Proof.
  apply carries_main_loop;
    first [ keeps_facts | exact keeps_reset | exact keeps_press
          | exact keeps_verify ].
Qed.

End Logs.

Lemma push_log_length (log : list LogMsg) (e : LogMsg) :
  List.length log <= max_log_entries ->
  List.length (push_log log e) <= max_log_entries.
Proof.
  intro H. unfold push_log. cbv zeta.
  destruct (max_log_entries <? List.length (log ++ [e])) eqn:E.
  - destruct log as [|x log]; cbn [app tl List.length] in *.
    + lia.
    + rewrite length_app. cbn [List.length]. lia.
  - apply Nat.ltb_ge in E. exact E.
Qed.

Lemma push_log_tail (log out : list LogMsg) (e : LogMsg) :
  log = last_entries max_log_entries out ->
  push_log log e = last_entries max_log_entries (out ++ [e]).
Proof.
  intros ->. unfold push_log, last_entries. cbv zeta.
  assert (Pos : 0 < max_log_entries) by (unfold max_log_entries; lia).
  rewrite !length_app, length_skipn. cbn [List.length].
  generalize dependent max_log_entries. intros n Pos.
  destruct (n <? List.length out - (List.length out - n) + 1) eqn:E.
  - apply Nat.ltb_lt in E.
    replace (List.length out + 1 - n) with (S (List.length out - n)) by lia.
    rewrite skipn_app.
    replace (S (List.length out - n) - List.length out) with 0 by lia.
    cbn [skipn].
    assert (Q : forall (l : list LogMsg) k, k < List.length l ->
                tl (skipn k l ++ [e]) = skipn (S k) l ++ [e]).
    { clear. induction l as [|x l IH]; intros k H; cbn [List.length] in H; [ lia | ].
      destruct k as [|k]; [ reflexivity | ].
      cbn [skipn]. apply IH. lia. }
    apply Q. lia.
  - apply Nat.ltb_ge in E.
    replace (List.length out - n) with 0 by lia.
    replace (List.length out + 1 - n) with 0 by lia.
    reflexivity.
Qed.

(** The in-memory event log is bounded: over any run of the main loop,
    if it held at most [max_log_entries] (1000) entries at the start, so
    it does at the end. *)
Theorem event_log_bounded (ts : list Turn) (s : Lockbox) :
  List.length (event_log s) <= max_log_entries ->
  List.length (event_log (snd (main_loop ts s))) <= max_log_entries.
Proof.
  apply (keeps_main_loop (fun log _ => List.length log <= max_log_entries)).
  intros log _ e. apply push_log_length.
Qed.


Lemma event_log_bounded_witness :
  List.length (event_log (snd (main_loop [tap 2 3] (default_boot true))))
  <= max_log_entries.
Proof. apply event_log_bounded. cbn. unfold max_log_entries. lia. Defined.


Lemma lockout_timing_witness :
  let s' := snd (initiate_lockout (default_boot true)) in
  system_locked s' = true /\ clock s' = 4800%Z /\ timers s' = [304800%Z].
Proof.
  destruct (lockout_timing (default_boot true) eq_refl) as (_ & L & C & T & _).
  cbv zeta. rewrite T, C. split; [ exact L | split; reflexivity ].
Defined.

(* ================================================================== *)
(** ** After the PIN phase *)
(* ================================================================== *)

Lemma reset_system_eq (s : Lockbox) :
  reset_system s
  = (Val tt,
     logged LogReset
       (set_status_led false
          (set_unlocked false (set_current_step 0 (leds_all false s))))).
Proof. reflexivity. Qed.

(** What [main_loop] does once [handle_pin_entry] has answered: on
    success it waits 5 s, and in both cases it resets the sequence, so
    the next attempt starts at step 0 with every LED off, whatever
    happened meanwhile. *)
Theorem pin_phase_ends_in_reset (ok : bool) (s : Lockbox) :
  let s' := snd (after_pin (Some ok) s) in
  fst (after_pin (Some ok) s) = Val true /\
  current_step s' = 0 /\ unlocked s' = false /\
  Forall (fun led => led = false) (led_pins s') /\
  status_led s' = false /\
  clock s' = (clock s + (if ok then 5000 else 0))%Z.
Proof.
  cbv zeta. destruct ok.
  - assert (E : after_pin (Some true) s
              = (Val true,
                 logged LogReset
                   (set_status_led false
                      (set_unlocked false
                         (set_current_step 0
                            (leds_all false (snd (sleep 5000 s)))))))).
    { cbn [after_pin]. rewrite (bind_fst (sleep 5000) _ s tt eq_refl).
      unfold bind. rewrite reset_system_eq. reflexivity. }
    rewrite E. destruct (sleep_fields 5000 s) as (C & _). cbn.
    repeat split; [ apply map_const_all | exact C ].
  - cbn [after_pin]. unfold bind. rewrite reset_system_eq. cbn.
    repeat split; [ apply map_const_all | lia ].
Qed.


(* ================================================================== *)
(** ** The shape of a PIN hash *)
(* ================================================================== *)

Lemma compress_length (h block : list Z) :
  List.length h = 8 -> List.length (Sha256.compress h block) = 8.
Proof.
  intro H. unfold Sha256.compress. cbv zeta.
  rewrite length_map, length_combine, H. reflexivity.
Qed.

Lemma blocks_length (n : nat) :
  forall h bs, List.length h = 8 -> List.length (Sha256.blocks n h bs) = 8.
Proof.
  induction n as [|n IH]; intros h bs H; cbn [Sha256.blocks]; [ exact H | ].
  apply IH, compress_length, H.
Qed.

Lemma nibbles_shape (wd : Z) :
  List.length (Sha256.nibbles wd) = 8 /\
  Forall (fun d => (0 <= d < 16)%Z) (Sha256.nibbles wd).
Proof.
  unfold Sha256.nibbles. split; [ reflexivity | ].
  apply Forall_forall. intros d Hd. apply in_map_iff in Hd.
  destruct Hd as (i & <- & _).
  change 15%Z with (Z.ones 4). rewrite Z.land_ones by lia.
  apply Z.mod_pos_bound. reflexivity.
Qed.

Lemma hex_of_nibbles_shape (ds : list Z) :
  Forall (fun d => (0 <= d < 16)%Z) ds ->
  String.length (Sha256.hex_of_nibbles ds) = List.length ds /\
  Forall (fun c => In c hex_digits)
         (list_ascii_of_string (Sha256.hex_of_nibbles ds)).
Proof.
  induction 1 as [|d ds Hd Hds [IH1 IH2]]; cbn [Sha256.hex_of_nibbles];
    [ split; [ reflexivity | constructor ] | ].
  cbn [String.length list_ascii_of_string List.length].
  split; [ f_equal; exact IH1 | ].
  constructor; [ | exact IH2 ].
  assert (C : (d = 0 \/ d = 1 \/ d = 2 \/ d = 3 \/ d = 4 \/ d = 5 \/ d = 6
               \/ d = 7 \/ d = 8 \/ d = 9 \/ d = 10 \/ d = 11 \/ d = 12
               \/ d = 13 \/ d = 14 \/ d = 15)%Z) by lia.
  repeat (destruct C as [->|C]; [ cbv; tauto | ]). subst d. cbv. tauto.
Qed.

Lemma hash_pin_hex (pin : string) :
  String.length (hash_pin pin) = 64 /\
  Forall (fun c => In c hex_digits) (list_ascii_of_string (hash_pin pin)).
Proof.
  unfold hash_pin, Sha256.hexdigest.
  set (ws := Sha256.digest _).
  assert (L : List.length ws = 8).
  { subst ws. unfold Sha256.digest. cbv zeta. apply blocks_length. reflexivity. }
  assert (N : List.length (flat_map Sha256.nibbles ws) = 64 /\
              Forall (fun d => (0 <= d < 16)%Z) (flat_map Sha256.nibbles ws)).
  { clearbody ws.
    do 9 (destruct ws as [|? ws]; [ try discriminate | ]); [ | discriminate ].
    cbn [flat_map]. rewrite app_nil_r.
    split.
    - rewrite !length_app.
      repeat match goal with
             | |- context [List.length (Sha256.nibbles ?w)] =>
                 rewrite (proj1 (nibbles_shape w))
             end.
      reflexivity.
    - repeat (apply Forall_app; split); apply nibbles_shape. }
  destruct N as [N1 N2].
  destruct (hex_of_nibbles_shape _ N2) as [S1 S2].
  split; [ rewrite S1; exact N1 | exact S2 ].
Qed.

(** [hash_pin] answers 64 lowercase hexadecimal characters, whatever the
    PIN. *)
Theorem hash_pin_shape (pin : string) :
  String.length (hash_pin pin) = 64 /\
  Forall (fun c => In c hex_digits) (list_ascii_of_string (hash_pin pin)).
Proof. exact (hash_pin_hex pin). Qed.


(* ================================================================== *)
(** ** The actuator *)
(* ================================================================== *)

(** *** Relations that do not hold across every logged line *)

Section Plain.
Context {R : Lockbox -> Lockbox -> Prop}.
Hypothesis R_refl : forall s, R s s.
Hypothesis R_trans : forall a b c, R a b -> R b c -> R a c.
Hypothesis R_sleep : forall d s, (0 <= d)%Z -> R s (snd (sleep d s)).
Hypothesis R_plain :
  forall e s, is_actuation e = false -> is_pin_ok e = false -> R s (logged e s).
Hypothesis R_write : forall w s, main_write w -> R s (w s).

Let R_beep (p : Pattern) (s : Lockbox) : R s (logged (LogAudioMock p) s) :=
  R_plain (LogAudioMock p) s eq_refl eq_refl.

Local Ltac plainly known :=
  repeat first
    [ lazymatch goal with
      | |- carries _ (bind _ _) => apply (carries_bind R_trans); [ | intro ]
      | |- carries _ (ret _) => apply (carries_ret R_refl)
      | |- carries _ (raise _) => apply (carries_raise R_refl)
      | |- carries _ (get _) => apply (carries_get R_refl)
      | |- carries _ (repeatM _ _) => apply (carries_repeat R_refl R_trans)
      | |- carries _ (audio_feedback _) =>
          apply (carries_audio R_refl R_trans R_sleep R_beep)
      | |- carries _ (wait_release _) =>
          apply (carries_wait R_refl R_trans R_sleep)
      | |- carries _ (scan_keypad _) =>
          apply (carries_scan_keypad R_refl R_trans R_sleep R_beep)
      | |- carries _ (sleep _) => intro; apply R_sleep; discriminate
      | |- carries _ (log_event _) => intro; apply R_plain; reflexivity
      | |- carries _ (modify _) => intro; apply R_write; constructor
      | |- carries _ (if ?b then _ else _) => destruct b
      | |- carries _ (match ?x with _ => _ end) => destruct x
      end
    | known ].

Lemma plain_reset : carries R reset_system.
Proof. unfold reset_system. plainly fail. Qed.

Lemma plain_initiate_lockout : carries R initiate_lockout.
Proof. unfold initiate_lockout. plainly fail. Qed.

Lemma plain_admin : carries R admin_mode.
Proof. unfold admin_mode. plainly fail. Qed.

Lemma plain_press (idx : nat) : carries R (press idx).
Proof.
  unfold press, right_button, wrong_button.
  plainly ltac:(first [ apply plain_reset | apply plain_initiate_lockout ]).
Qed.

(** [unlock_mechanism] after its first line. *)
Lemma plain_unlock_rest :
  carries R (sleep 1000 ;; sleep 2000 ;; sleep 500 ;;
             audio_feedback Success ;; log_event LogUnlockDone).
Proof. plainly fail. Qed.

(** [verify_pin] when the PIN does not match the primary hash. *)
Lemma plain_verify_else (entered_pin : string) :
  carries R (admin_hash <- get admin_pin_hash ;;
             if String.eqb (hash_pin entered_pin) admin_hash then
               log_event LogAdminPin ;; admin_mode ;; ret true
             else
               log_event LogInvalidPin ;;
               audio_feedback Error ;;
               modify count_failure ;;
               failed <- get failed_attempts ;;
               (if max_attempts <=? failed then initiate_lockout else ret tt) ;;
               ret false).
Proof.
  plainly ltac:(first [ apply plain_admin | apply plain_initiate_lockout ]).
Qed.

Hypothesis R_verify : forall pin, keypad_pin pin -> carries R (verify_pin pin).

Lemma plain_scan_buttons (button_pins : list Line) :
  forall idx, carries R (scan_buttons idx button_pins).
Proof.
  induction button_pins as [|b rest IH]; intro idx; cbn [scan_buttons].
  - plainly fail.
  - unfold scan_button.
    plainly ltac:(first [ apply plain_press | apply IH ]).
Qed.

Lemma plain_check_tree_buttons (button_pins : list Line) :
  carries R (check_tree_buttons button_pins).
Proof.
  unfold check_tree_buttons. plainly ltac:(apply plain_scan_buttons).
Qed.

(** A bind whose continuation may rely on what the first part answers. *)
Lemma carries_bind_answer {A B} (m : M A) (k : A -> M B) (Q : A -> Prop) :
  carries R m ->
  (forall s a, fst (m s) = Val a -> Q a) ->
  (forall a, Q a -> carries R (k a)) ->
  carries R (bind m k).
Proof.
  intros Hm Hq Hk s. unfold bind. specialize (Hm s). specialize (Hq s).
  destruct (m s) as [[a|e] s']; cbn [fst snd] in *.
  - eapply R_trans; [ exact Hm | apply Hk, Hq; reflexivity ].
  - exact Hm.
Qed.

Lemma plain_pin_loop (scans : list Keypad) :
  forall entered start,
  Forall (fun c => In c keypad_digits) (list_ascii_of_string entered) ->
  carries R (pin_loop scans entered start).
Proof.
  induction scans as [|cells rest IH]; intros entered start He; cbn [pin_loop].
  - plainly fail.
  - apply (carries_bind R_trans); [ apply (carries_get R_refl) | intro now ].
    destruct (1000 * pin_timeout <? now - start)%Z; [ plainly fail | ].
    apply (carries_bind_answer _ _
             (fun key => forall k, key = Some k -> In k keypad_digits)).
    + apply (carries_scan_keypad R_refl R_trans R_sleep R_beep).
    + intros s key Hk k ->.
      rewrite scan_keypad_key in Hk. injection Hk as Hk.
      apply (scanned_key_digit cells). exact Hk.
    + intros [k|] Hk; [ | plainly ltac:(apply IH; exact He) ].
      specialize (Hk k eq_refl).
      assert (He' : Forall (fun c => In c keypad_digits)
                      (list_ascii_of_string (entered ++ String k EmptyString))).
      { clear - He Hk. induction entered as [|c entered IHe]; cbn in *.
        - constructor; [ exact Hk | constructor ].
        - inversion He; subst. constructor; [ assumption | apply IHe; assumption ]. }
      apply (carries_bind R_trans);
        [ intro; apply R_plain; reflexivity | intros _ ].
      destruct (String.length (entered ++ String k EmptyString) =? 4) eqn:E4.
      * apply Nat.eqb_eq in E4.
        plainly ltac:(apply R_verify; split; assumption).
      * plainly ltac:(apply IH; exact He').
Qed.

Lemma plain_turn (t : Turn) : carries R (turn t).
Proof.
  unfold turn, handle_pin_entry, after_pin.
  plainly ltac:(first [ apply plain_check_tree_buttons
                      | apply plain_pin_loop; constructor
                      | apply plain_reset ]).
Qed.

Lemma plain_turns (ts : list Turn) : carries R (turns ts).
Proof.
  induction ts as [|t rest IH]; cbn [turns];
    plainly ltac:(first [ exact IH | apply plain_turn ]).
Qed.

Lemma plain_main_loop (ts : list Turn) : carries R (main_loop ts).
Proof.
  unfold main_loop, cleanup. plainly fail.
  apply (carries_try R_trans).
  - apply plain_turns.
  - intro e. plainly fail.
Qed.

End Plain.

(** *** The cooldown threads log no verdict *)

Lemma timer_counts (p : LogMsg -> bool) (s : Lockbox) :
  p LogReset = false -> p LogLockoutExpired = false ->
  count_lines p (console (snd (lockout_timer s))) = count_lines p (console s) /\
  correct_pin_hash (snd (lockout_timer s)) = correct_pin_hash s.
Proof.
  intros H1 H2.
  change (console (snd (lockout_timer s)))
    with ((console s ++ [LogReset]) ++ [LogLockoutExpired]).
  rewrite !count_lines_snoc, H1, H2. split; [ lia | reflexivity ].
Qed.

Lemma wake_counts (p : LogMsg -> bool) (woken : list Z) :
  p LogReset = false -> p LogLockoutExpired = false ->
  forall s,
  count_lines p (console (snd (wake woken s))) = count_lines p (console s) /\
  correct_pin_hash (snd (wake woken s)) = correct_pin_hash s.
Proof.
  intros H1 H2. induction woken as [|w rest IH]; intro s; cbn [wake].
  - split; reflexivity.
  - destruct (timer_counts p s H1 H2) as [C K].
    unfold bind. destruct (lockout_timer s) as [[[]|e] s1]; cbn [snd] in *.
    + destruct (IH s1) as [C' K']. split; congruence.
    + split; assumption.
Qed.

Lemma sleep_counts (p : LogMsg -> bool) (d : Z) (s : Lockbox) :
  p LogReset = false -> p LogLockoutExpired = false ->
  count_lines p (console (snd (sleep d s))) = count_lines p (console s) /\
  correct_pin_hash (snd (sleep d s)) = correct_pin_hash s.
Proof.
  intros H1 H2. unfold sleep. cbn [snd].
  apply (wake_counts p _ H1 H2
           (set_clock_timers (clock s + d)
              (filter (fun w => negb (due (clock s + d) w)) (timers s)) s)).
Qed.

Lemma snd_then_ret {A B} (m : M A) (b : B) (s : Lockbox) :
  snd (bind m (fun _ => ret b) s) = snd (m s).
Proof. unfold bind. destruct (m s) as [[a|e] s']; reflexivity. Qed.

(** *** One actuation for each verified PIN *)

Lemma paired_refl (s : Lockbox) : paired s s.
Proof. unfold paired. lia. Qed.

Lemma paired_trans (a b c : Lockbox) : paired a b -> paired b c -> paired a c.
Proof. unfold paired. lia. Qed.

Lemma paired_sleep (d : Z) (s : Lockbox) :
  (0 <= d)%Z -> paired s (snd (sleep d s)).
Proof.
  intros _. unfold paired, actuations, pin_oks.
  destruct (sleep_counts is_actuation d s eq_refl eq_refl) as [-> _].
  destruct (sleep_counts is_pin_ok d s eq_refl eq_refl) as [-> _].
  reflexivity.
Qed.

Lemma paired_plain (e : LogMsg) (s : Lockbox) :
  is_actuation e = false -> is_pin_ok e = false -> paired s (logged e s).
Proof.
  intros H1 H2. unfold paired, actuations, pin_oks. cbn [console logged set_logs].
  rewrite !count_lines_snoc, H1, H2. lia.
Qed.

Lemma paired_write (w : Lockbox -> Lockbox) (s : Lockbox) :
  main_write w -> paired s (w s).
Proof. intros []; reflexivity. Qed.

Lemma paired_verdict (e : LogMsg) (s : Lockbox) :
  is_actuation e = true ->
  paired s (logged e (logged LogPinOk s)).
Proof.
  intro H. unfold paired, actuations, pin_oks. cbn [console logged set_logs].
  rewrite !count_lines_snoc, H. destruct e; try discriminate; cbn; lia.
Qed.

Lemma paired_verify (pin : string) : carries paired (verify_pin pin).
Proof.
  intro s. unfold verify_pin.
  rewrite (bind_eq (get correct_pin_hash) _ s s _ eq_refl).
  destruct (String.eqb (hash_pin pin) (correct_pin_hash s)).
  - rewrite (bind_eq (log_event LogPinOk) _ s (logged LogPinOk s) tt eq_refl).
    rewrite snd_then_ret. unfold unlock_mechanism.
    rewrite (bind_eq (get hardware_available) _ _ (logged LogPinOk s) _ eq_refl).
    destruct (hardware_available (logged LogPinOk s)); cbn [negb].
    + rewrite (bind_eq (log_event LogUnlockStart) _ _
                 (logged LogUnlockStart (logged LogPinOk s)) tt eq_refl).
      apply (paired_trans _ (logged LogUnlockStart (logged LogPinOk s)));
        [ apply (paired_verdict LogUnlockStart); reflexivity | ].
      apply (plain_unlock_rest paired_refl paired_trans paired_sleep paired_plain).
    + apply (paired_verdict LogUnlockMock). reflexivity.
  - apply (plain_verify_else paired_refl paired_trans paired_sleep paired_plain
             paired_write).
Qed.

(** The actuator and the PIN check go together.  Over any run of the
    main loop, whatever the buttons and the keypad show, the actuator is
    triggered exactly as many times as a PIN is verified against the
    primary hash: never without that verification, and once after each. *)
Theorem actuations_follow_verifications (ts : list Turn) (s : Lockbox) :
  let s' := snd (main_loop ts s) in
  actuations s' + pin_oks s = actuations s + pin_oks s'.
Proof.
  apply (plain_main_loop paired_refl paired_trans paired_sleep paired_plain
           paired_write).
  intros pin _. apply paired_verify.
Qed.

(** *** No actuation without a matching PIN *)

Lemma shut_refl (s : Lockbox) : shut s s.
Proof. intros _. auto. Qed.

Lemma shut_trans (a b c : Lockbox) : shut a b -> shut b c -> shut a c.
Proof.
  intros H1 H2 Ha. destruct (H1 Ha) as (K1 & A1 & P1).
  destruct H2 as (K2 & A2 & P2); [ rewrite K1; exact Ha | ].
  repeat split; congruence.
Qed.

Lemma shut_sleep (d : Z) (s : Lockbox) : (0 <= d)%Z -> shut s (snd (sleep d s)).
Proof.
  intros _ _. unfold actuations, pin_oks.
  destruct (sleep_counts is_actuation d s eq_refl eq_refl) as [-> ->].
  destruct (sleep_counts is_pin_ok d s eq_refl eq_refl) as [-> _].
  auto.
Qed.

Lemma shut_plain (e : LogMsg) (s : Lockbox) :
  is_actuation e = false -> is_pin_ok e = false -> shut s (logged e s).
Proof.
  intros H1 H2 _. unfold actuations, pin_oks. cbn [console logged set_logs].
  rewrite !count_lines_snoc, H1, H2. repeat split; lia.
Qed.

Lemma shut_write (w : Lockbox -> Lockbox) (s : Lockbox) :
  main_write w -> shut s (w s).
Proof. intros [] _; repeat split; reflexivity. Qed.

Lemma shut_verify (pin : string) : keypad_pin pin -> carries shut (verify_pin pin).
Proof.
  intros Hk s Hs. unfold verify_pin.
  rewrite (bind_eq (get correct_pin_hash) _ s s _ eq_refl).
  destruct (String.eqb (hash_pin pin) (correct_pin_hash s)) eqn:E.
  - apply String.eqb_eq in E. destruct (Hs pin Hk E).
  - apply (plain_verify_else shut_refl shut_trans shut_sleep shut_plain shut_write).
    exact Hs.
Qed.

(** Only the PIN opens the box.  If no four-key PIN the keypad can
    produce has the stored primary hash, then over any run of the main
    loop, whatever the buttons and the keypad show, the actuator is never
    triggered (and the stored hash is not changed). *)
Theorem no_actuation_without_the_pin (ts : list Turn) (s : Lockbox) :
  (forall pin, keypad_pin pin -> hash_pin pin <> correct_pin_hash s) ->
  let s' := snd (main_loop ts s) in
  actuations s' = actuations s /\ correct_pin_hash s' = correct_pin_hash s.
Proof.
  intro H.
  destruct (plain_main_loop shut_refl shut_trans shut_sleep shut_plain
              shut_write shut_verify ts s H) as (K & A & _).
  split; assumption.
Qed.

Lemma no_actuation_without_the_pin_witness :
  let s := boot true default_path EmptyString (hash_pin "9999") in
  actuations (snd (main_loop slip_then_unlock s)) = actuations s.
Proof.
  apply (no_actuation_without_the_pin slip_then_unlock
           (boot true default_path EmptyString (hash_pin "9999"))).
  intros pin _ E.
  pose proof (proj1 (hash_pin_hex pin)) as L.
  rewrite E in L. discriminate L.
Defined.

(* ================================================================== *)
(** ** Construction *)
(* ================================================================== *)

(** [__init__] never completes.  [setup_gpio_expanders] (and, when the
    configuration file is absent, [load_configuration] before it) calls
    [log_event] before [self.event_log] is assigned, so construction ends
    with an exception on every platform and for every configuration
    file.  When the file can be read, or is absent and can be created,
    the exception is the [AttributeError] on [event_log], raised after
    the first line has been printed; the handler of
    [setup_gpio_expanders] only raises it again from its own
    [log_event]. *)
Theorem init_never_completes (p : Platform) (file : ConfigFile) :
  exists e d,
    init p (blank file) = (Failed e, d) /\
    a_event_log d = None /\
    (file <> Unreadable -> (file = Absent -> writable p = true) ->
     e = AttributeError "event_log" /\ printed d <> []).
Proof.
  destruct p as [hw wr bus], file as [| |seq pin admin];
    destruct hw, wr, bus;
    (eexists; eexists; split; [ reflexivity | ]);
    (split; [ reflexivity | ]);
    intros H1 H2;
    try (exfalso; now apply H1);
    try (specialize (H2 eq_refl); discriminate H2);
    (split; [ reflexivity | discriminate ]).
Qed.



(** Keys missing from the configuration file.  [load_configuration]
    takes each of the three values from the file when its key is there
    and the default otherwise, key by key, raises nothing, and neither
    writes the file nor logs. *)
Theorem load_configuration_defaults (p : Platform) (d : Draft)
        (tree_sequence : option (list Z)) (pin_hash admin_hash : option string) :
  disk d = Holds tree_sequence pin_hash admin_hash ->
  let d' := snd (load_configuration p d) in
  fst (load_configuration p d) = Done tt /\
  a_correct_path d' = Some (get_or tree_sequence default_path) /\
  a_correct_pin_hash d' = Some (get_or pin_hash (hash_pin "1234")) /\
  a_admin_pin_hash d' = Some (get_or admin_hash (hash_pin "9999")) /\
  disk d' = disk d /\ printed d' = printed d.
Proof.
  intro H. unfold load_configuration. rewrite H. cbn. rewrite H. repeat split.
Qed.

Lemma load_configuration_defaults_witness :
  let d' := snd (load_configuration (mkPlatform true true true)
                   (blank (Holds (Some [4; 2]%Z) None None))) in
  a_correct_path d' = Some [4; 2]%Z /\
  a_correct_pin_hash d' = Some (hash_pin "1234").
Proof.
  destruct (load_configuration_defaults (mkPlatform true true true)
              (blank (Holds (Some [4; 2]%Z) None None))
              (Some [4; 2]%Z) None None eq_refl) as (_ & P & H & _).
  split; assumption.
Defined.

(** The first start.  With no configuration file and a writable
    directory, [load_configuration] writes the default path and the
    hashes of 1234 and 9999 to the file before it fails on its
    [log_event]; at the next start that file is read back without
    error. *)
Theorem first_start_writes_defaults (p : Platform) :
  writable p = true ->
  let first := load_configuration p (blank Absent) in
  let second := load_configuration p (blank (disk (snd first))) in
  fst first = Failed (AttributeError "event_log") /\
  disk (snd first)
  = Holds (Some default_path) (Some (hash_pin "1234")) (Some (hash_pin "9999")) /\
  fst second = Done tt /\
  a_correct_path (snd second) = Some default_path /\
  a_correct_pin_hash (snd second) = Some (hash_pin "1234") /\
  a_admin_pin_hash (snd second) = Some (hash_pin "9999").
Proof.
  intro Hw. destruct p as [hw wr bus]. cbn in Hw. subst wr.
  cbv zeta. repeat split.
Qed.

Lemma first_start_writes_defaults_witness :
  let first := load_configuration (mkPlatform false true true) (blank Absent) in
  fst first = Failed (AttributeError "event_log") /\
  disk (snd first)
  = Holds (Some default_path) (Some (hash_pin "1234")) (Some (hash_pin "9999")).
Proof.
  destruct (first_start_writes_defaults (mkPlatform false true true) eq_refl)
    as (F & D & _).
  split; assumption.
Defined.

(* ================================================================== *)
(** ** Runs that never stop *)
(* ================================================================== *)

Section Holding.
Variable P : Lockbox -> Prop.
Hypothesis P_sleep : forall d s, P s -> P (snd (sleep d s)).
Hypothesis P_log : forall e s, P s -> P (logged e s).
Hypothesis P_side : forall w s, side_write w -> P s -> P (w s).
Hypothesis P_reset : forall s, P s -> P (snd (reset_system s)).

Lemma holds_ret {A} (a : A) : holds P (ret a).
Proof. intros s H. split; [ exists a; reflexivity | exact H ]. Qed.

Lemma holds_get {A} (f : Lockbox -> A) : holds P (get f).
Proof. intros s H. split; [ exists (f s); reflexivity | exact H ]. Qed.

Lemma holds_bind {A B} (m : M A) (k : A -> M B) :
  holds P m -> (forall a, holds P (k a)) -> holds P (bind m k).
Proof.
  intros Hm Hk s H. destruct (Hm s H) as [[a Ha] Hs]. unfold bind.
  destruct (m s) as [[a'|e] s']; cbn [fst snd] in *; [ | discriminate ].
  apply Hk. exact Hs.
Qed.

Lemma holds_repeat (n : nat) (body : M unit) :
  holds P body -> holds P (repeatM n body).
Proof.
  intro Hb. induction n as [|n IH]; cbn [repeatM].
  - apply holds_ret.
  - apply holds_bind; [ exact Hb | intros _; exact IH ].
Qed.

Lemma holds_sleep (d : Z) : holds P (sleep d).
Proof. intros s H. split; [ exists tt; reflexivity | apply P_sleep, H ]. Qed.

Lemma holds_log (e : LogMsg) : holds P (log_event e).
Proof. intros s H. split; [ exists tt; reflexivity | apply P_log, H ]. Qed.

Lemma holds_side (w : Lockbox -> Lockbox) : side_write w -> holds P (modify w).
Proof. intros Hw s H. split; [ exists tt; reflexivity | apply P_side; assumption ]. Qed.

Lemma holds_reset : holds P reset_system.
Proof. intros s H. split; [ exists tt; reflexivity | apply P_reset, H ]. Qed.

Local Ltac holding known :=
  repeat first
    [ lazymatch goal with
      | |- holds _ (bind _ _) => apply holds_bind; [ | intro ]
      | |- holds _ (ret _) => apply holds_ret
      | |- holds _ (get _) => apply holds_get
      | |- holds _ (repeatM _ _) => apply holds_repeat
      | |- holds _ (sleep _) => apply holds_sleep
      | |- holds _ (log_event _) => apply holds_log
      | |- holds _ reset_system => apply holds_reset
      | |- holds _ (modify _) => apply holds_side; constructor
      | |- holds _ (if ?b then _ else _) => destruct b
      | |- holds _ (match ?x with _ => _ end) => destruct x
      end
    | known ].

Lemma holds_audio (p : Pattern) : holds P (audio_feedback p).
Proof. unfold audio_feedback. holding fail. Qed.

Lemma holds_wait (polls : nat) : holds P (wait_release polls).
Proof. unfold wait_release. holding fail. Qed.

Lemma holds_scan_rows (cells : Keypad) (col : nat) (rows : list nat) :
  holds P (scan_rows cells col rows).
Proof.
  induction rows as [|row rest IH]; cbn [scan_rows].
  - holding fail.
  - holding ltac:(idtac; lazymatch goal with
                  | |- holds _ (scan_rows _ _ _) => exact IH
                  | |- holds _ (wait_release _) => apply holds_wait
                  | |- holds _ (audio_feedback _) => apply holds_audio
                  end).
Qed.

Lemma holds_scan_keypad (cells : Keypad) : holds P (scan_keypad cells).
Proof.
  unfold scan_keypad. generalize (seq 0 (List.length keypad_col_pins)).
  intro cols. induction cols as [|col rest IH]; cbn [scan_cols].
  - holding fail.
  - holding ltac:(idtac; lazymatch goal with
                  | |- holds _ (scan_cols _ _) => exact IH
                  | |- holds _ (scan_rows _ _ _) => apply holds_scan_rows
                  end).
Qed.

Lemma holds_initiate_lockout : holds P initiate_lockout.
Proof.
  unfold initiate_lockout.
  holding ltac:(idtac; lazymatch goal with
                | |- holds _ (audio_feedback _) => apply holds_audio
                end).
Qed.

Lemma holds_wrong_button (idx : nat) : holds P (wrong_button idx).
Proof.
  unfold wrong_button.
  holding ltac:(idtac; lazymatch goal with
                | |- holds _ (audio_feedback _) => apply holds_audio
                | |- holds _ initiate_lockout => apply holds_initiate_lockout
                end).
Qed.

Lemma holds_verify (pin : string) : holds P (verify_pin pin).
Proof.
  unfold verify_pin, unlock_mechanism, admin_mode.
  holding ltac:(idtac; lazymatch goal with
                | |- holds _ (audio_feedback _) => apply holds_audio
                | |- holds _ initiate_lockout => apply holds_initiate_lockout
                end).
Qed.

Lemma holds_pin_loop (scans : list Keypad) :
  forall entered start, holds P (pin_loop scans entered start).
Proof.
  induction scans as [|cells rest IH]; intros entered start; cbn [pin_loop];
    holding ltac:(idtac; lazymatch goal with
                  | |- holds _ (pin_loop _ _ _) => apply IH
                  | |- holds _ (audio_feedback _) => apply holds_audio
                  | |- holds _ (scan_keypad _) => apply holds_scan_keypad
                  | |- holds _ (verify_pin _) => apply holds_verify
                  end).
Qed.

Lemma holds_handle_pin_entry (scans : list Keypad) :
  holds P (handle_pin_entry scans).
Proof.
  unfold handle_pin_entry.
  holding ltac:(idtac; lazymatch goal with
                | |- holds _ (pin_loop _ _ _) => apply holds_pin_loop
                end).
Qed.

(** A scan pass over lines that show no confirmed press. *)
Lemma holds_scan_unpressed (button_pins : list Line) :
  forall idx,
  forallb unpressed button_pins = true ->
  holds P (scan_buttons idx button_pins).
Proof.
  induction button_pins as [|b rest IH]; intros idx Hu; cbn [scan_buttons].
  - holding fail.
  - cbn [forallb] in Hu. apply andb_true_iff in Hu. destruct Hu as [Hb Hr].
    destruct b; [ | | discriminate ]; unfold scan_button;
      holding ltac:(idtac; lazymatch goal with
                    | |- holds _ (scan_buttons _ _) => apply IH; exact Hr
                    end).
Qed.

End Holding.

(** *** What the cooldown threads do to the sequence *)

Lemma wake_session (woken : list Z) :
  forall s,
  let s' := snd (wake woken s) in
  correct_path s' = correct_path s /\
  List.length (led_pins s') = List.length (led_pins s) /\
  ((current_step s' = current_step s /\ unlocked s' = unlocked s) \/
   (current_step s' = 0 /\ unlocked s' = false)).
Proof.
  induction woken as [|w rest IH]; intro s; cbn [wake].
  - cbn. auto.
  - destruct (lockout_timer_fields s)
      as (Hv & _ & _ & S1 & U1 & _ & _ & G1 & L1 & _).
    rewrite (bind_fst lockout_timer _ s tt Hv).
    destruct (IH (snd (lockout_timer s))) as (P2 & L2 & C2).
    assert (G2 : correct_path (snd (lockout_timer s)) = correct_path s)
      by reflexivity.
    cbv zeta. repeat split; [ congruence | congruence | right ].
    destruct C2 as [[-> ->]|[-> ->]]; auto.
Qed.

Lemma sleep_session (d : Z) (s : Lockbox) :
  let s' := snd (sleep d s) in
  correct_path s' = correct_path s /\
  List.length (led_pins s') = List.length (led_pins s) /\
  ((current_step s' = current_step s /\ unlocked s' = unlocked s) \/
   (current_step s' = 0 /\ unlocked s' = false)).
Proof.
  unfold sleep. cbn [snd].
  apply (wake_session _
           (set_clock_timers (clock s + d)
              (filter (fun w => negb (due (clock s + d) w)) (timers s)) s)).
Qed.

Lemma sound_length (s : Lockbox) : sound s -> 0 < List.length (correct_path s).
Proof. intros [H _]. destruct (correct_path s); [ congruence | cbn; lia ]. Qed.

Lemma ready_settled (s : Lockbox) : ready s -> settled s.
Proof. intros [H1 H2]. split; auto. Qed.

Lemma ready_sleep (d : Z) (s : Lockbox) : ready s -> ready (snd (sleep d s)).
Proof.
  intros [[H1 H2] H3]. destruct (sleep_session d s) as (P & L & C). cbv zeta in *.
  pose proof (sound_length s (conj H1 H2)).
  unfold ready, sound. rewrite P, L.
  repeat split; try assumption. destruct C as [[-> _]|[-> _]]; lia.
Qed.

Lemma settled_sleep (d : Z) (s : Lockbox) : settled s -> settled (snd (sleep d s)).
Proof.
  intros [[H1 H2] H3]. destruct (sleep_session d s) as (P & L & C). cbv zeta in *.
  pose proof (sound_length s (conj H1 H2)).
  unfold settled, sound. rewrite P, L.
  repeat split; try assumption.
  destruct C as [[-> ->]|[-> _]]; [ exact H3 | right; lia ].
Qed.

Lemma ready_log (e : LogMsg) (s : Lockbox) : ready s -> ready (logged e s).
Proof. intro H. exact H. Qed.

Lemma settled_log (e : LogMsg) (s : Lockbox) : settled s -> settled (logged e s).
Proof. intro H. exact H. Qed.

Lemma ready_side (w : Lockbox -> Lockbox) (s : Lockbox) :
  side_write w -> ready s -> ready (w s).
Proof.
  intros [] H; try exact H.
  destruct H as [[H1 H2] H3]. unfold ready, sound. cbn. rewrite length_map. auto.
Qed.

Lemma settled_side (w : Lockbox -> Lockbox) (s : Lockbox) :
  side_write w -> settled s -> settled (w s).
Proof.
  intros [] H; try exact H.
  destruct H as [[H1 H2] H3]. unfold settled, sound. cbn. rewrite length_map. auto.
Qed.

Lemma sound_reset (s : Lockbox) : sound s -> ready (snd (reset_system s)).
Proof.
  intro H. pose proof (sound_length s H). destruct H as [H1 H2].
  rewrite reset_system_eq. unfold ready, sound. cbn. rewrite length_map. auto.
Qed.

Lemma ready_reset (s : Lockbox) : ready s -> ready (snd (reset_system s)).
Proof. intros [H _]. apply sound_reset, H. Qed.

Lemma settled_reset (s : Lockbox) : settled s -> settled (snd (reset_system s)).
Proof. intros [H _]. apply ready_settled, sound_reset, H. Qed.

(** *** A confirmed press from a ready object *)

Lemma right_button_settles (idx : nat) (s : Lockbox) :
  idx < 31 -> ready s ->
  (exists a, fst (right_button idx s) = Val a) /\
  settled (snd (right_button idx s)).
Proof.
  intros Hi [[H1 H2] H3]. unfold right_button.
  rewrite (bind_eq (get led_pins) _ s s _ eq_refl).
  assert (Hlt : (idx <? List.length (led_pins s)) = true)
    by (apply Nat.ltb_lt; lia).
  rewrite Hlt.
  rewrite (bind_eq (modify (led_on idx)) _ s (led_on idx s) tt eq_refl).
  rewrite (bind_eq (modify advance_step) _ (led_on idx s)
             (advance_step (led_on idx s)) tt eq_refl).
  rewrite (bind_eq (get current_step) _ (advance_step (led_on idx s))
             (advance_step (led_on idx s)) (S (current_step s)) eq_refl).
  set (s4 := logged (LogCorrect idx (S (current_step s)))
               (advance_step (led_on idx s))).
  rewrite (bind_eq (log_event (LogCorrect idx (S (current_step s)))) _
             (advance_step (led_on idx s)) s4 tt eq_refl).
  rewrite (bind_eq (get correct_path) _ s4 s4 (correct_path s) eq_refl).
  assert (S4 : sound s4).
  { split; [ exact H1 | ]. subst s4. cbn. rewrite list_set_length. exact H2. }
  destruct (List.length (correct_path s) <=? S (current_step s)) eqn:E.
  - rewrite (bind_eq (modify (set_unlocked true)) _ s4 (set_unlocked true s4) tt eq_refl).
    rewrite (bind_eq (modify (set_status_led true)) _ (set_unlocked true s4)
               (set_status_led true (set_unlocked true s4)) tt eq_refl).
    assert (S6 : settled (set_status_led true (set_unlocked true s4))).
    { split; [ exact S4 | left; reflexivity ]. }
    apply (holds_bind settled (audio_feedback Success)
             (fun _ => log_event LogSequenceDone));
      [ apply holds_audio; [ exact settled_sleep | exact settled_log ]
      | intros _; apply holds_log; exact settled_log
      | exact S6 ].
  - apply Nat.leb_gt in E. split; [ exists tt; reflexivity | ].
    cbn [snd ret]. split; [ exact S4 | right; exact E ].
Qed.

Lemma press_settles (idx : nat) (s : Lockbox) :
  idx < 31 -> ready s ->
  (exists a, fst (press idx s) = Val a) /\ settled (snd (press idx s)).
Proof.
  intros Hi Hr. unfold press.
  rewrite (bind_eq (get current_step) _ s s _ eq_refl).
  set (s1 := logged (LogButton idx (current_step s)) s).
  rewrite (bind_eq (log_event (LogButton idx (current_step s))) _ s s1 tt eq_refl).
  assert (R1 : ready s1) by exact Hr.
  destruct (holds_audio ready ready_sleep ready_log Single s1 R1) as [[[] Ha] R2].
  rewrite (bind_fst (audio_feedback Single) _ s1 tt Ha).
  set (s2 := snd (audio_feedback Single s1)) in *.
  rewrite (bind_eq (get correct_path) _ s2 s2 _ eq_refl).
  rewrite (bind_eq (get current_step) _ s2 s2 _ eq_refl).
  destruct (nth_error (correct_path s2) (current_step s2)) as [expected|] eqn:E.
  - destruct (Z.of_nat idx =? expected)%Z.
    + apply right_button_settles; assumption.
    + destruct (holds_wrong_button ready ready_sleep ready_log ready_side
                  ready_reset idx s2 R2) as [Hv Hs].
      split; [ exact Hv | apply ready_settled, Hs ].
  - apply nth_error_None in E. destruct R2 as [_ R2]. lia.
Qed.

(** *** A pass with at most one confirmed press *)

Lemma no_press_unpressed (button_pins : list Line) :
  presses button_pins = 0 -> forallb unpressed button_pins = true.
Proof.
  unfold presses. induction button_pins as [|b rest IH]; intro H; [ reflexivity | ].
  cbn [filter forallb] in *. destruct (unpressed b); cbn [negb] in *.
  - apply IH, H.
  - discriminate.
Qed.

Lemma scan_settles (button_pins : list Line) :
  forall idx s,
  presses button_pins <= 1 -> ready s ->
  (exists a, fst (scan_buttons idx button_pins s) = Val a) /\
  settled (snd (scan_buttons idx button_pins s)).
Proof.
  induction button_pins as [|b rest IH]; intros idx s Hp Hr; cbn [scan_buttons].
  - split; [ exists tt; reflexivity | apply ready_settled, Hr ].
  - destruct (31 <=? idx) eqn:E;
      [ split; [ exists tt; reflexivity | apply ready_settled, Hr ] | ].
    apply Nat.leb_gt in E.
    destruct b as [| |polls]; cbn [scan_button].
    + rewrite (bind_eq (ret tt) _ s s tt eq_refl). apply IH; assumption.
    + rewrite (bind_fst (sleep 50) _ s tt eq_refl).
      apply IH; [ exact Hp | apply ready_sleep, Hr ].
    + assert (Hrest : forallb unpressed rest = true).
      { apply no_press_unpressed. unfold presses in *. cbn in Hp. lia. }
      rewrite bind_assoc, (bind_fst (sleep 50) _ s tt eq_refl). cbv beta.
      pose proof (ready_sleep 50 s Hr) as R1.
      set (s1 := snd (sleep 50 s)) in *.
      destruct (press_settles idx s1 E R1) as [[[] Hv] Hs].
      rewrite bind_assoc, (bind_fst (press idx) _ s1 tt Hv). cbv beta.
      set (s2 := snd (press idx s1)) in *.
      rewrite bind_assoc.
      apply (holds_bind settled (wait_release polls)
               (fun _ => modify stamp_activity ;; scan_buttons (S idx) rest));
        [ apply holds_wait; exact settled_sleep | | exact Hs ].
      intros _. apply holds_bind;
        [ apply holds_side; [ exact settled_side | constructor ] | intros _ ].
      apply holds_scan_unpressed;
        first [ exact settled_sleep | exact Hrest ].
Qed.

(** *** The loop *)

Lemma turn_ready (t : Turn) (s : Lockbox) :
  presses (buttons t) <= 1 -> ready s ->
  exists continue, fst (turn t s) = Val continue /\
                   (continue = true -> ready (snd (turn t s))).
Proof.
  intros Hp Hr. unfold turn.
  rewrite (bind_eq (get system_locked) _ s s _ eq_refl).
  destruct (system_locked s) eqn:L; cbn [negb].
  - exists true. split; [ reflexivity | intros _; exact Hr ].
  - unfold check_tree_buttons.
    rewrite bind_assoc, (bind_eq (get system_locked) _ s s _ eq_refl), L.
    destruct (scan_settles (buttons t) 0 s Hp Hr) as [[[] Hv] Hs].
    rewrite (bind_fst (scan_buttons 0 (buttons t)) _ s tt Hv).
    set (s1 := snd (scan_buttons 0 (buttons t) s)) in *.
    rewrite (bind_eq (get unlocked) _ s1 s1 _ eq_refl).
    destruct (unlocked s1) eqn:U.
    + assert (Hh : holds settled (handle_pin_entry (keypad t))).
      { apply holds_handle_pin_entry;
          first [ exact settled_sleep | exact settled_log | exact settled_side ]. }
      destruct (Hh s1 Hs) as [[answer Ha] Hs2].
      rewrite (bind_fst (handle_pin_entry (keypad t)) _ s1 answer Ha).
      set (s2 := snd (handle_pin_entry (keypad t) s1)) in *.
      destruct answer as [[|]|]; cbn [after_pin].
      * exists true. rewrite (bind_fst (sleep 5000) _ s2 tt eq_refl).
        rewrite (bind_fst reset_system _ _ tt eq_refl).
        split; [ reflexivity | intros _ ]. cbn [snd ret].
        apply sound_reset. apply (settled_sleep 5000 s2 Hs2).
      * exists true. rewrite (bind_fst reset_system _ _ tt eq_refl).
        split; [ reflexivity | intros _ ]. cbn [snd ret].
        apply sound_reset. apply Hs2.
      * exists false. split; [ reflexivity | discriminate ].
    + exists true. split; [ reflexivity | intros _ ]. cbn [snd ret].
      destruct Hs as [Hs [Hu|Hk]]; [ congruence | split; assumption ].
Qed.

Lemma turns_return (ts : list Turn) :
  forall s,
  Forall (fun t => presses (buttons t) <= 1) ts -> ready s ->
  exists st, fst (turns ts s) = Val st.
Proof.
  induction ts as [|t rest IH]; intros s Hf Hr; cbn [turns].
  - exists Polling. reflexivity.
  - inversion Hf as [|t' rest' Ht Hrest]; subst.
    destruct (turn_ready t s Ht Hr) as (c & Hc & Hn).
    rewrite (bind_fst (turn t) _ s c Hc).
    destruct c.
    + rewrite (bind_fst (sleep 100) _ _ tt eq_refl).
      apply IH; [ exact Hrest | apply ready_sleep, Hn; reflexivity ].
    + exists EnteringPin. reflexivity.
Qed.

(** One press a pass.  With a path that is not empty, a LED for each of
    the 31 buttons and [current_step] an index of the path, a run of the
    main loop in which no pass shows more than one confirmed press raises
    nothing, whatever is pressed, whatever the keypad shows and whenever
    the cooldown threads wake: [main_loop] does not return. *)
Theorem one_press_a_pass_never_stops (ts : list Turn) (s : Lockbox) :
  correct_path s <> [] ->
  List.length (led_pins s) = 31 ->
  current_step s < List.length (correct_path s) ->
  Forall (fun t => presses (buttons t) <= 1) ts ->
  exists st, fst (main_loop ts s) = Val st /\ st <> Exited.
Proof.
  intros H1 H2 H3 Hf. unfold main_loop.
  rewrite (bind_eq (log_event LogStarted) _ s (logged LogStarted s) tt eq_refl).
  assert (Hr : ready (logged LogStarted s)) by (repeat split; assumption).
  destruct (turns_return ts _ Hf Hr) as [st Hst].
  pose proof (turns_not_exited ts (logged LogStarted s)) as Hne.
  unfold try_except.
  destruct (turns ts (logged LogStarted s)) as [[st'|e] s']; cbn [fst] in *;
    [ | discriminate ].
  exists st'. split; [ reflexivity | congruence ].
Qed.

Lemma one_press_a_pass_never_stops_witness :
  exists st, fst (main_loop slip_then_unlock (default_boot true)) = Val st /\
             st <> Exited.
Proof.
  apply one_press_a_pass_never_stops.
  - discriminate.
  - reflexivity.
  - cbn. lia.
  - repeat constructor.
Defined.
